(** * Region-adjacency-graph engine of ClusteringSegmentation

    A shallow embedding of the superpixel store ([SuperpixelImage]), of its
    merge operator ([mergeEdge]), of the label-image parser ([parse],
    [parseSuperpixelEdges]), of the statistical bound checker
    ([pos_sample_within_bound]), of the outlier scan
    ([scanLargestSuperpixels]) and of the lock bookkeeping of the
    breadth-first strategies, with the properties of the specification
    stated and proved against them.

    Conventions: [int32_t] tags and coordinates are [Z]; [float] is IEEE
    binary32, modelled with the [spec_float] operations at precision 24;
    an [unordered_map] is a [gmap]; a [vector] is a [list]; a failed
    [assert] or an access outside a vector is [None] in the option monad.

    The first part holds the model and the notions the statements use;
    the lemmas and the theorems C1 to C10 follow in the second part. *)

From Stdlib Require Import ZArith Lia Bool List.
From Stdlib Require Import Floats.SpecFloat.
From Stdlib Require Import Strings.Byte.
From stdpp Require Import gmap list sorting.

Local Open Scope Z_scope.

(** ** binary32 arithmetic *)

Module F32.

Definition float := spec_float.

Definition prec : Z := 24.
Definition emax : Z := 128.

Definition add : float -> float -> float := SFadd prec emax.
Definition sub : float -> float -> float := SFsub prec emax.
Definition mul : float -> float -> float := SFmul prec emax.
Definition div : float -> float -> float := SFdiv prec emax.
Definition sqrt : float -> float := SFsqrt prec emax.

(** C++ [a < b], [a <= b], [a > b], [a == b] on floats. *)
Definition ltb : float -> float -> bool := SFltb.
Definition leb : float -> float -> bool := SFleb.
Definition gtb (a b : float) : bool := SFltb b a.
Definition eqb : float -> float -> bool := SFeqb.

(** Conversion [(float) n] of an integer. *)
Definition of_Z (n : Z) : float := binary_normalize prec emax n 0 false.

Definition zero : float := S754_zero false.
Definition one : float := of_Z 1.
Definition two : float := of_Z 2.
Definition three : float := of_Z 3.
Definition half : float := div one two.
Definition hundred : float := of_Z 100.
(** The literal [0.01f]: the binary32 number nearest to 1/100. *)
Definition min_stddev_bound : float := div one hundred.

Definition is_nan (a : float) : bool :=
  match a with S754_nan => true | _ => false end.

End F32.

Abbreviation float := F32.float.

(** ** Data model *)

Record Coord := mkCoord { coord_x : Z; coord_y : Z }.

Record Superpixel := mkSuperpixel {
  tag : Z;
  coords : list Coord;
  mergedEdgeWeights : list float;
  unmergedEdgeWeights : list float
}.

(** The fields [A] and [B] of an edge. *)
Record SuperpixelEdge := mkEdge { edgeA : Z; edgeB : Z }.

(** Modelled from the spec: the [SuperpixelEdgeTable] class (its source
    file is not part of the sources; only its callers are).  Section 4.2:
    a mapping from an id to its neighbor ids with bulk read
    ([getNeighbors]), bulk replace ([setNeighbors]) and delete
    ([removeNeighbors]) of a row, plus a cache of weights keyed by the
    unordered pair of ids.  Rows are kept as the vectors the callers hand
    in, so that duplicates would be visible. *)
Record SuperpixelEdgeTable := mkEdgeTable {
  neighbors : gmap Z (list Z);
  edgeStrengthMap : gmap (Z * Z) float
}.

Definition getNeighbors (et : SuperpixelEdgeTable) (t : Z) : list Z :=
  default [] (neighbors et !! t).

Definition setNeighbors (t : Z) (row : list Z) (et : SuperpixelEdgeTable)
  : SuperpixelEdgeTable :=
  mkEdgeTable (<[t := row]> (neighbors et)) (edgeStrengthMap et).

Definition removeNeighbors (t : Z) (et : SuperpixelEdgeTable)
  : SuperpixelEdgeTable :=
  mkEdgeTable (delete t (neighbors et)) (edgeStrengthMap et).

(** Cache key of the unordered pair. *)
Definition edgeKey (a b : Z) : Z * Z := (Z.min a b, Z.max a b).

Definition eraseStrength (a b : Z) (et : SuperpixelEdgeTable)
  : SuperpixelEdgeTable :=
  mkEdgeTable (neighbors et) (delete (edgeKey a b) (edgeStrengthMap et)).

Record SuperpixelImage := mkImage {
  tagToSuperpixelMap : gmap Z Superpixel;
  superpixels : list Z;
  edgeTable : SuperpixelEdgeTable
}.

Definition getSuperpixelPtr (s : SuperpixelImage) (uid : Z) : option Superpixel :=
  tagToSuperpixelMap s !! uid.

(** A failed [assert]. *)
Definition assert (b : bool) : option unit := if b then Some tt else None.

(** ** Binary search in the sorted tag list *)

(** [std::lower_bound] by bisection over [l[first .. first+len)]. *)
Fixpoint lower_bound_from (fuel : nat) (l : list Z) (first len : nat) (val : Z) : nat :=
  match fuel with
  | O => first
  | S fuel' =>
      match len with
      | O => first
      | _ =>
          let half := (len / 2)%nat in
          let middle := (first + half)%nat in
          match l !! middle with
          | Some m =>
              if m <? val
              then lower_bound_from fuel' l (S middle) (len - half - 1)%nat val
              else lower_bound_from fuel' l first half val
          | None => first
          end
      end
  end.

Definition lower_bound (l : list Z) (val : Z) : nat :=
  lower_bound_from (length l) l 0%nat (length l) val.

(** [binary_search_iter]: the position of [val], or [None] for [last]. *)
Definition binary_search_iter (l : list Z) (val : Z) : option nat :=
  let first := lower_bound l val in
  match l !! first with
  | Some x => if val <? x then None else Some first
  | None => None
  end.

(** ** The merge operator *)

(** First loop of the adjacency repair: every cached weight of an edge
    at [dst] is dropped. *)
Definition clearDstStrength (dst : Z) (row : list Z) (et : SuperpixelEdgeTable)
  : SuperpixelEdgeTable :=
  foldl (fun et' n => eraseStrength dst n et') et row.

(** Second loop: every neighbor of [src] forgets [src] and is linked
    with [dst] unless it already is. *)
Fixpoint repairSrcNeighbors (src dst : Z) (neighborsSrc : list Z)
    (et : SuperpixelEdgeTable) : option SuperpixelEdgeTable :=
  match neighborsSrc with
  | [] => Some et
  | neighborOfSrcTag :: rest =>
      let et1 := eraseStrength src neighborOfSrcTag et in
      if neighborOfSrcTag =? dst then repairSrcNeighbors src dst rest et1
      else
        let row := getNeighbors et1 neighborOfSrcTag in
        let found := existsb (Z.eqb src) row in
        let others := filter (fun n => n ≠ src) row in
        _ ← assert found;
        let '(row', et2) :=
          if existsb (Z.eqb dst) others then (others, et1)
          else (others ++ [dst],
                setNeighbors dst (getNeighbors et1 dst ++ [neighborOfSrcTag]) et1) in
        repairSrcNeighbors src dst rest (setNeighbors neighborOfSrcTag row' et2)
  end.

Definition appendWeights (dst src : list float) : list float :=
  match src with [] => dst | _ => dst ++ src end.

(** The body of [mergeEdge] once [srcPtr] and [dstPtr] are chosen; [ksrc]
    and [kdst] are the keys under which the two objects were found. *)
Definition mergeInto (s : SuperpixelImage) (ksrc : Z) (src : Superpixel)
    (kdst : Z) (dst : Superpixel) : option SuperpixelImage :=
  let dstCoords := coords dst ++ coords src in
  (* the sorted list of live tags loses the tag of src *)
  pos ← binary_search_iter (superpixels s) (tag src);
  let superpixels' := delete pos (superpixels s) in
  (* src leaves the row of dst *)
  let neighborsDst := getNeighbors (edgeTable s) (tag dst) in
  let et1 := clearDstStrength (tag dst) neighborsDst (edgeTable s) in
  _ ← assert (existsb (Z.eqb (tag src)) neighborsDst);
  let et2 := setNeighbors (tag dst) (filter (fun n => n ≠ tag src) neighborsDst) et1 in
  (* the neighbors of src become neighbors of dst *)
  et3 ← repairSrcNeighbors (tag src) (tag dst) (getNeighbors et2 (tag src)) et2;
  let et4 := removeNeighbors (tag src) et3 in
  let dst' := mkSuperpixel (tag dst) dstCoords
                (appendWeights (mergedEdgeWeights dst) (mergedEdgeWeights src))
                (appendWeights (unmergedEdgeWeights dst) (unmergedEdgeWeights src)) in
  let src' := mkSuperpixel (tag src) [] (mergedEdgeWeights src) (unmergedEdgeWeights src) in
  let objects := <[kdst := dst']> (<[ksrc := src']> (tagToSuperpixelMap s)) in
  Some (mkImage (delete (tag src) objects) superpixels' et4).

Definition mergeEdge (s : SuperpixelImage) (edgeToMerge : SuperpixelEdge)
  : option SuperpixelImage :=
  _ ← assert (negb (edgeA edgeToMerge =? edgeB edgeToMerge));
  spA ← getSuperpixelPtr s (edgeA edgeToMerge);
  spB ← getSuperpixelPtr s (edgeB edgeToMerge);
  if (length (coords spB) <=? length (coords spA))%nat
  then (* merge B into A since A is larger *)
    mergeInto s (edgeB edgeToMerge) spB (edgeA edgeToMerge) spA
  else (* merge A into B since B is larger *)
    mergeInto s (edgeA edgeToMerge) spA (edgeB edgeToMerge) spB.

(** A small store used by the examples: regions 1 (10 pixels), 2 (3 pixels)
    and 3 (5 pixels) in a row, 1 - 2 - 3. *)
Definition pixels (n : nat) : list Coord := map (fun i => mkCoord (Z.of_nat i) 0) (seq 0 n).

Definition demoImage : SuperpixelImage :=
  mkImage
    (<[1 := mkSuperpixel 1 (pixels 10) [] []]>
       (<[2 := mkSuperpixel 2 (pixels 3) [] []]>
          (<[3 := mkSuperpixel 3 (pixels 5) [] []]> ∅)))
    [1; 2; 3]
    (mkEdgeTable (<[1 := [2]]> (<[2 := [1; 3]]> (<[3 := [2]]> ∅))) ∅).

(** ** Well-formed stores *)

Definition row (s : SuperpixelImage) (t : Z) : list Z := getNeighbors (edgeTable s) t.

Definition live (s : SuperpixelImage) (t : Z) : Prop := is_Some (tagToSuperpixelMap s !! t).

Definition numCoords (s : SuperpixelImage) (t : Z) : nat :=
  from_option (fun sp => length (coords sp)) 0%nat (tagToSuperpixelMap s !! t).

(** Total number of coordinates held by the live regions. *)
Definition totalCoords (s : SuperpixelImage) : nat :=
  sum_list (map (numCoords s) (superpixels s)).

Record wf (s : SuperpixelImage) : Prop := mkWf {
  wf_sorted : StronglySorted Z.lt (superpixels s);
  wf_live : ∀ t, t ∈ superpixels s ↔ live s t;
  wf_tag : ∀ t sp, tagToSuperpixelMap s !! t = Some sp → tag sp = t;
  wf_nodup : ∀ t, NoDup (row s t);
  wf_irrefl : ∀ t, t ∉ row s t;
  wf_sym : ∀ t n, n ∈ row s t → t ∈ row s n;
  wf_row_live : ∀ t n, n ∈ row s t → live s t
}.

(** The adjacency invariants of the specification, over active ids. *)
Definition adjacency_ok (s : SuperpixelImage) : Prop :=
  (∀ X Y, live s X → live s Y → (Y ∈ row s X ↔ X ∈ row s Y)) ∧
  (∀ X, X ∉ row s X).

(** The rows after the second repair loop, in closed form. *)
Definition repairedRow (et : SuperpixelEdgeTable) (src dst : Z) (ns : list Z) (t : Z)
  : list Z :=
  if decide (t = dst)
  then getNeighbors et dst ++ filter (fun n => n ≠ dst ∧ dst ∉ getNeighbors et n) ns
  else if decide (t ∈ ns)
  then filter (fun n => n ≠ src) (getNeighbors et t)
         ++ (if decide (dst ∈ getNeighbors et t) then [] else [dst])
  else getNeighbors et t.

(** ** The merge operator on a well-formed store *)

(** Membership in the rows of the contracted graph. *)
Definition contracted (s : SuperpixelImage) (src dst t x : Z) : Prop :=
  (x ∈ row s t ∧ x ≠ src) ∨
  (t = dst ∧ x ∈ row s src ∧ x ≠ dst) ∨
  (x = dst ∧ t ∈ row s src ∧ t ≠ dst).

Record merged (s : SuperpixelImage) (src dst : Z) (s' : SuperpixelImage) : Prop := mkMerged {
  merged_src : tagToSuperpixelMap s' !! src = None;
  merged_dst : ∃ sp, tagToSuperpixelMap s' !! dst = Some sp ∧ tag sp = dst ∧
                 length (coords sp) = (numCoords s dst + numCoords s src)%nat;
  merged_others : ∀ t, t ≠ src → t ≠ dst →
                   tagToSuperpixelMap s' !! t = tagToSuperpixelMap s !! t;
  merged_sorted : StronglySorted Z.lt (superpixels s');
  merged_tags : ∀ t, t ∈ superpixels s' ↔ t ∈ superpixels s ∧ t ≠ src;
  merged_pos : ∃ pos, superpixels s !! pos = Some src ∧
                 superpixels s' = delete pos (superpixels s);
  merged_row_src : row s' src = [];
  merged_rows : ∀ t x, t ≠ src → x ∈ row s' t ↔ contracted s src dst t x;
  merged_nodup : ∀ t, NoDup (row s' t)
}.

(** Survivor selection: the larger region wins, the first argument on a tie. *)
Definition survivor (s : SuperpixelImage) (e : SuperpixelEdge) : Z :=
  if (numCoords s (edgeB e) <=? numCoords s (edgeA e))%nat then edgeA e else edgeB e.

Definition loser (s : SuperpixelImage) (e : SuperpixelEdge) : Z :=
  if (numCoords s (edgeB e) <=? numCoords s (edgeA e))%nat then edgeB e else edgeA e.

(** ** Label images *)

(** A [Vec3b] pixel: channel 0 is B, channel 1 is G, channel 2 is R. *)
Definition Vec3b : Type := byte * byte * byte.

Definition byteZ (b : byte) : Z := Z.of_N (Byte.to_N b).

(** Store of an [int] known to lie in 0..255 into an [unsigned char]. *)
Definition ucharOf (z : Z) : byte := default Byte.x00 (Byte.of_N (Z.to_N z)).

Definition Vec3BToUID (v : Vec3b) : Z :=
  let '(b0, b1, b2) := v in
  Z.lor (Z.lor (Z.shiftl (byteZ b2) 16) (Z.shiftl (byteZ b1) 8)) (byteZ b0).

(** The three stores [tagVec[i] = (tag >> 8 i) & 0xFF]. *)
Definition UIDToVec3b (t : Z) : Vec3b :=
  (ucharOf (Z.land t 255),
   ucharOf (Z.land (Z.shiftr t 8) 255),
   ucharOf (Z.land (Z.shiftr t 16) 255)).

(** An OpenCV matrix of [Vec3b], read and written through [at(y, x)]. *)
Record Mat := mkMat { rows : Z; cols : Z; at_ : Z → Z → Vec3b }.

Definition mat_set (m : Mat) (y x : Z) (v : Vec3b) : Mat :=
  mkMat (rows m) (cols m)
        (fun y' x' => if decide ((y', x') = (y, x)) then v else at_ m y' x').

(** The pixels in the order of the two nested loops, as (y, x). *)
Definition pixelOrder (m : Mat) : list (Z * Z) :=
  y ← seqZ 0 (rows m); x ← seqZ 0 (cols m); [(y, x)].

Definition reservedTag : Z := 0xFFFFFF.

Definition appendCoord (sp : Superpixel) (x y : Z) : Superpixel :=
  mkSuperpixel (tag sp) (coords sp ++ [mkCoord x y])
               (mergedEdgeWeights sp) (unmergedEdgeWeights sp).

(** First loop of [parse]: [Some (false, ..)] is the [return false] on a
    reserved label, with the image and the table as they are by then. *)
Fixpoint parsePixels (todo : list (Z * Z)) (tags : Mat) (m : gmap Z Superpixel)
  : option (bool * Mat * gmap Z Superpixel) :=
  match todo with
  | [] => Some (true, tags, m)
  | (y, x) :: rest =>
      let tagVec := at_ tags y x in
      let tag0 := Vec3BToUID tagVec in
      if tag0 =? reservedTag then Some (false, tags, m)
      else
        _ ← assert (tag0 <? reservedTag);
        let tag1 := tag0 + 1 in
        let tags' := mat_set tags y x (UIDToVec3b tag1) in
        let '(sp, m1) :=
          match m !! tag1 with
          | None => let sp := mkSuperpixel tag1 [] [] [] in (sp, <[tag1 := sp]> m)
          | Some sp => (sp, m)
          end in
        _ ← assert (tag sp =? tag1);
        parsePixels rest tags' (<[tag1 := appendCoord sp x y]> m1)
  end.

Definition neighborOffsets : list (Z * Z) :=
  [(-1, -1); (0, -1); (1, -1); (-1, 0); (1, 0); (-1, 1); (0, 1); (1, 1)].

(** The tag found at offset [(dX, dY)] of [(x, y)], or -1 outside the image. *)
Definition foundNeighborUID (tags : Mat) (y x : Z) (d : Z * Z) : Z :=
  let nX := x + d.1 in
  let nY := y + d.2 in
  if (nX <? 0) || (cols tags <=? nX) then -1
  else if (nY <? 0) || (rows tags <=? nY) then -1
  else Vec3BToUID (at_ tags nY nX).

Definition noteNeighbor (centerTag : Z) (neighborUIDsVec : list Z) (found : Z) : list Z :=
  if (found =? -1) || (found =? centerTag) then neighborUIDsVec
  else if existsb (Z.eqb found) neighborUIDsVec then neighborUIDsVec
  else neighborUIDsVec ++ [found].

Definition scanPixel (tags : Mat) (tagToNeighborMap : gmap Z (list Z)) (p : Z * Z)
  : gmap Z (list Z) :=
  let centerTag := Vec3BToUID (at_ tags p.1 p.2) in
  let neighborUIDsVec := default [] (tagToNeighborMap !! centerTag) in
  <[centerTag :=
      foldl (fun vec d => noteNeighbor centerTag vec (foundNeighborUID tags p.1 p.2 d))
            neighborUIDsVec neighborOffsets]> tagToNeighborMap.

(** Last loop of [parseSuperpixelEdges]: the rows go into the edge table. *)
Fixpoint storeRows (many : bool) (tagToNeighborMap : gmap Z (list Z)) (tagList : list Z)
    (et : SuperpixelEdgeTable) : option SuperpixelEdgeTable :=
  match tagList with
  | [] => Some et
  | t :: rest =>
      let neighborUIDsVec := default [] (tagToNeighborMap !! t) in
      _ ← assert (implb many (0 <? Z.of_nat (length neighborUIDsVec)));
      storeRows many tagToNeighborMap rest (setNeighbors t neighborUIDsVec et)
  end.

Definition parseSuperpixelEdges (tags : Mat) (spImage : SuperpixelImage)
  : option (bool * SuperpixelImage) :=
  let tagToNeighborMap := foldl (scanPixel tags) ∅ (pixelOrder tags) in
  et ← storeRows (1 <? Z.of_nat (length (superpixels spImage)))
         tagToNeighborMap (superpixels spImage) (edgeTable spImage);
  Some (true, mkImage (tagToSuperpixelMap spImage) (superpixels spImage) et).

Definition emptyImage : SuperpixelImage := mkImage ∅ [] (mkEdgeTable ∅ ∅).

(** [parse]: the result flag, the label image as left behind, the store. *)
Definition parse (tags : Mat) (spImage : SuperpixelImage)
  : option (bool * Mat * SuperpixelImage) :=
  '(ok, tags', m) ← parsePixels (pixelOrder tags) tags (tagToSuperpixelMap spImage);
  if negb ok then Some (false, tags', mkImage m (superpixels spImage) (edgeTable spImage))
  else
    let tagList := superpixels spImage ++ (map_to_list m).*1 in
    _ ← assert (Nat.eqb (length tagList) (size m));
    let tagList := merge_sort Z.le tagList in
    '(worked, s) ← parseSuperpixelEdges tags' (mkImage m tagList (edgeTable spImage));
    Some (worked, tags', s).

(** Images for the examples. *)
Definition labelPixel (l : Z) : Vec3b := UIDToVec3b l.

(** Labels 0 and 5 in a checkerboard. *)
Definition checkerboard : Mat :=
  mkMat 4 4 (fun y x => labelPixel (if Z.even (x + y) then 0 else 5)).

(** A row of 18 pixels: ten of label 0, three of label 1, five of label 2. *)
Definition stripes : Mat :=
  mkMat 1 18 (fun y x => labelPixel (if x <? 10 then 0 else if x <? 13 then 1 else 2)).

Definition whitePixelImage : Mat :=
  mkMat 2 2 (fun y x => labelPixel (if (x =? 1) && (y =? 0) then reservedTag else 7)).

Definition parsed (tags : Mat) : option SuperpixelImage :=
  match parse tags emptyImage with
  | Some (true, _, s) => Some s
  | _ => None
  end.

(** ** The first loop of [parse] *)

Definition label (tags : Mat) (p : Z * Z) : Z := Vec3BToUID (at_ tags p.1 p.2).

Definition coordOf (p : Z * Z) : Coord := mkCoord p.2 p.1.

(** The coordinates a tag receives from the pixels of [todo], in order. *)
Definition coordsOf (tags : Mat) (todo : list (Z * Z)) (t : Z) : list Coord :=
  map coordOf (filter (fun p => label tags p + 1 = t) todo).

(** The table entry of [t] after receiving the coordinates [cs]. *)
Definition grown (m : gmap Z Superpixel) (t : Z) (cs : list Coord) : option Superpixel :=
  match m !! t with
  | Some sp => Some (mkSuperpixel (tag sp) (coords sp ++ cs)
                       (mergedEdgeWeights sp) (unmergedEdgeWeights sp))
  | None => match cs with [] => None | _ => Some (mkSuperpixel t cs [] []) end
  end.

Definition tagsOk (m : gmap Z Superpixel) : Prop :=
  ∀ t sp, m !! t = Some sp → tag sp = t.

(** ** The neighbor scan of [parseSuperpixelEdges] *)

(** [x] is seen from a pixel of tag [t] at one of the eight offsets. *)
Definition seenFrom (tags : Mat) (todo : list (Z * Z)) (t x : Z) : Prop :=
  ∃ p d, p ∈ todo ∧ d ∈ neighborOffsets ∧ label tags p = t ∧
         foundNeighborUID tags p.1 p.2 d = x ∧ x ≠ -1 ∧ x ≠ t.

Definition tableRow (tn : gmap Z (list Z)) (t : Z) : list Z := default [] (tn !! t).

Ltac in_list := repeat first [apply list_elem_of_here | apply list_elem_of_further].

(** ** [parse] as a whole *)

Record parsedAs (tags tags' : Mat) (s : SuperpixelImage) : Prop := mkParsedAs {
  pa_rows : rows tags' = rows tags;
  pa_cols : cols tags' = cols tags;
  pa_labels : ∀ p, label tags' p =
                if decide (p ∈ pixelOrder tags) then label tags p + 1 else label tags p;
  pa_regions : ∀ t, tagToSuperpixelMap s !! t = grown ∅ t (coordsOf tags (pixelOrder tags) t);
  pa_sorted : StronglySorted Z.lt (superpixels s);
  pa_tags : ∀ t, t ∈ superpixels s ↔ live s t;
  pa_row : ∀ t x, x ∈ row s t ↔ seenFrom tags' (pixelOrder tags') t x;
  pa_nodup : ∀ t, NoDup (row s t)
}.

(** ** Stores the program can produce *)

Inductive reachable : SuperpixelImage → Prop :=
  | reach_parse (tags tags' : Mat) (s : SuperpixelImage) :
      parse tags emptyImage = Some (true, tags', s) → reachable s
  | reach_merge (s s' : SuperpixelImage) (e : SuperpixelEdge) :
      reachable s → mergeEdge s e = Some s' → reachable s'.

(** The store of the striped image, and the same after merging 1 and 2. *)
Definition stripesStore : SuperpixelImage := default emptyImage (parsed stripes).

Definition stripesMerged : SuperpixelImage :=
  default emptyImage (mergeEdge stripesStore (mkEdge 1 2)).

Definition stripesBumped : Mat :=
  match parse stripes emptyImage with Some (_, tags', _) => tags' | None => stripes end.

(** * The statistical bound checker *)

(** Modelled from the spec: [float_diffs] of Util.h (not part of the
    sources).  Section 4.5: the successive deltas of the weights; the
    callers drop the first element as "a delta from zero", so the
    running value starts at zero. *)
Fixpoint float_diffs_from (last : float) (floatVec : list float) : list float :=
  match floatVec with
  | [] => []
  | value :: rest => F32.sub value last :: float_diffs_from value rest
  end.

Definition float_diffs (floatVec : list float) : list float :=
  float_diffs_from F32.zero floatVec.

(** [vec.erase(vec.begin())], undefined on an empty vector. *)
Definition eraseFirst (vec : list float) : option (list float) :=
  match vec with [] => None | _ :: rest => Some rest end.

Definition minusOne : float := F32.of_Z (-1).

(** The loop over [deltaWeights]: the count of positive deltas and the
    absolute values of the nonzero ones. *)
Definition collectDeltas (deltaWeights : list float) : nat * list float :=
  foldl (fun '(numNonNegDeltas, useDeltas) deltaWeight =>
           if negb (F32.eqb deltaWeight F32.zero)
           then if F32.gtb deltaWeight F32.zero
                then (S numNonNegDeltas, useDeltas ++ [deltaWeight])
                else (numNonNegDeltas, useDeltas ++ [F32.mul deltaWeight minusOne])
           else (numNonNegDeltas, useDeltas))
        (0%nat, []) deltaWeights.

(** The loop that keeps the weights above the running maximum, which
    starts at the first weight. *)
Definition collectIncreasing (weights : list float) : list float :=
  match weights with
  | [] => []
  | first :: rest =>
      snd (foldl (fun '(prev, increasingWeights) weight =>
                    if F32.gtb weight prev
                    then (weight, increasingWeights ++ [weight])
                    else (prev, increasingWeights))
                 (first, []) rest)
  end.

Section Statistics.

(** [sample_mean] and [sample_mean_delta_squared_div] of Util.h are not
    part of the sources; the checker and the scans are stated for any
    pair of them. *)
Variable sample_mean : list float → float.
Variable sample_mean_delta_squared_div : list float → float → float.

(** The decision at the end of [pos_sample_within_bound]. *)
Definition continueExpanding (useDeltas : list float) (lastWeight currentWeight : float)
  : bool :=
  let mean := sample_mean useDeltas in
  let stddev := sample_mean_delta_squared_div useDeltas mean in
  let upperLimit := F32.add mean (F32.mul stddev F32.two) in
  let currentWeightDelta := F32.sub currentWeight lastWeight in
  negb (F32.gtb stddev F32.min_stddev_bound
        && F32.gtb currentWeightDelta F32.zero
        && F32.gtb currentWeightDelta upperLimit).

(** [pos_sample_within_bound]: the result and the vector [weights] as the
    call leaves it (it is passed by reference). *)
Definition pos_sample_within_bound (weights : list float) (currentWeight : float)
  : option (bool * list float) :=
  if match weights with [w] => F32.gtb w F32.half | _ => false end
  then Some (false, weights)
  else if (length weights <=? 2)%nat then Some (true, weights)
  else
    deltaWeights ← eraseFirst (float_diffs weights);
    _ ← assert (2 <=? length deltaWeights)%nat;
    let '(numNonNegDeltas, useDeltas) := collectDeltas deltaWeights in
    '(weights', useDeltas') ←
      (if (3 <=? numNonNegDeltas)%nat
       then
         let increasingWeights := collectIncreasing weights in
         _ ← assert (0 <? length increasingWeights)%nat;
         increasingDeltas ← eraseFirst (float_diffs increasingWeights);
         Some (increasingWeights, increasingDeltas)
       else Some (weights, useDeltas));
    lastWeight ← last weights';
    Some (continueExpanding useDeltas' lastWeight currentWeight, weights').

End Statistics.

(** Modelled from the spec: the sample mean and the sample standard
    deviation of Util.h, used where an example needs numbers. *)
Definition sumFloats (values : list float) : float := foldl F32.add F32.zero values.

Definition sampleMean (values : list float) : float :=
  match values with
  | [] => F32.zero
  | _ => F32.div (sumFloats values) (F32.of_Z (Z.of_nat (length values)))
  end.

Definition sampleStddev (values : list float) (mean : float) : float :=
  match values with
  | [] | [_] => F32.zero
  | _ =>
      F32.sqrt (F32.div (sumFloats (map (fun v => F32.mul (F32.sub v mean) (F32.sub v mean))
                                        values))
                        (F32.of_Z (Z.of_nat (length values) - 1)))
  end.

Definition withinBound : list float → float → option (bool * list float) :=
  pos_sample_within_bound sampleMean sampleStddev.

Definition threeQuarters : float := F32.div F32.three (F32.of_Z 4).

(** ** The loops of the bound checker, in closed form *)

(** The deltas between neighbors in the history. *)
Fixpoint successiveDeltas (weights : list float) : list float :=
  match weights with
  | w0 :: (w1 :: _) as rest => F32.sub w1 w0 :: successiveDeltas rest
  | _ => []
  end.

Definition absDelta (d : float) : float :=
  if F32.gtb d F32.zero then d else F32.mul d minusOne.

Definition isPositive (d : float) : Prop := F32.gtb d F32.zero = true.
Definition isNonzero (d : float) : Prop := F32.eqb d F32.zero = false.

Global Instance isPositive_dec (d : float) : Decision (isPositive d).
Proof. unfold isPositive. apply _. Defined.
Global Instance isNonzero_dec (d : float) : Decision (isNonzero d).
Proof. unfold isNonzero. apply _. Defined.

(** The weights that exceed every weight before them, the first one apart. *)
Fixpoint increasingFrom (prev : float) (weights : list float) : list float :=
  match weights with
  | [] => []
  | w :: rest =>
      if F32.gtb w prev then w :: increasingFrom w rest else increasingFrom prev rest
  end.

Definition runningMaxima (weights : list float) : list float :=
  match weights with [] => [] | first :: rest => increasingFrom first rest end.

Definition risingHistory : list float := map F32.of_Z [1; 2; 4; 7; 0].

(** * The outlier scans *)

Definition MaxSmallNumPixelsVal : Z := 10.

(** First loop of [scanLargestSuperpixels]: the sizes of the regions that
    are not small, and their tags, in two vectors side by side. *)
Fixpoint collectSizes (s : SuperpixelImage) (tagList : list Z)
    (superpixelsSizes : list float) (superpixelsForSizes : list Z)
  : option (list float * list Z) :=
  match tagList with
  | [] => Some (superpixelsSizes, superpixelsForSizes)
  | t :: rest =>
      spPtr ← getSuperpixelPtr s t;
      let numCoords := Z.of_nat (length (coords spPtr)) in
      if numCoords <? MaxSmallNumPixelsVal
      then collectSizes s rest superpixelsSizes superpixelsForSizes
      else collectSizes s rest (superpixelsSizes ++ [F32.of_Z numCoords])
                        (superpixelsForSizes ++ [t])
  end.

(** Last loop: the tags at the offsets whose size is not within the limit. *)
Fixpoint selectAbove (upperLimit : float) (sizes : list float) (forSizes : list Z)
    (offset : nat) (results : list Z) : option (list Z) :=
  match sizes with
  | [] => Some results
  | numCoords :: rest =>
      if F32.leb numCoords upperLimit
      then selectAbove upperLimit rest forSizes (S offset) results
      else
        t ← forSizes !! offset;
        selectAbove upperLimit rest forSizes (S offset) (results ++ [t])
  end.

Section OutlierScan.

Variable sample_mean : list float → float.
Variable sample_mean_delta_squared_div : list float → float → float.

Definition scanLargestSuperpixels (s : SuperpixelImage) : option (list Z) :=
  '(superpixelsSizes, superpixelsForSizes) ← collectSizes s (superpixels s) [] [];
  let mean := sample_mean superpixelsSizes in
  let stddev := sample_mean_delta_squared_div superpixelsSizes mean in
  if F32.ltb stddev F32.hundred then Some []
  else
    let upperLimit := F32.add mean (F32.mul (F32.mul stddev F32.half) F32.three) in
    selectAbove upperLimit superpixelsSizes superpixelsForSizes 0 [].

End OutlierScan.

(** The regions that enter the statistics, and their sizes as floats. *)
Definition counted (s : SuperpixelImage) : list Z :=
  filter (fun t => MaxSmallNumPixelsVal ≤ Z.of_nat (numCoords s t)) (superpixels s).

Definition sizeOf (s : SuperpixelImage) (t : Z) : float :=
  F32.of_Z (Z.of_nat (numCoords s t)).

(** One background of 300 pixels (label 0) followed by four regions of
    12 pixels (labels 1 to 4). *)
Definition blobs : Mat :=
  mkMat 1 348 (fun y x => labelPixel (if x <? 300 then 0 else (x - 300) / 12 + 1)).

Definition blobsStore : SuperpixelImage := default emptyImage (parsed blobs).

(** * The cleanup of tiny regions *)

(** Doubles are IEEE binary64.  A number of a format is kept in the
    normal form of that format, so that the comparisons of [spec_float]
    compare the values of two numbers of one format. *)
Module F64.

Definition prec : Z := 53.
Definition emax : Z := 1024.

Definition is_nan (a : spec_float) : bool :=
  match a with S754_nan => true | _ => false end.

(** Conversion [(double) n] of an integer. *)
Definition of_Z (n : Z) : spec_float := binary_normalize prec emax n 0 false.

(** The promotion of a float to double in a mixed comparison; it is
    exact. *)
Definition of_float (a : float) : spec_float :=
  match a with
  | S754_finite sgn m e =>
      binary_normalize prec emax (if sgn then Z.neg m else Z.pos m) e sgn
  | _ => a
  end.

End F64.

(** TUPLE (score, N_PIXELS or UID, NEIGHBOR_TAG or SIZE); the score is a
    double and is only compared. *)
Definition CompareNeighborTuple : Type := spec_float * Z * Z.

(** Modelled from the spec: [getNeighborsSet] of the edge table, the row
    as a set of ids, iterated in ascending order. *)
Definition getNeighborsSet (et : SuperpixelEdgeTable) (t : Z) : list Z :=
  merge_sort Z.le (remove_dups (getNeighbors et t)).

(** Conversion of a float to [int32_t], by truncation. *)
Definition floatToInt (a : float) : Z :=
  match a with
  | S754_finite sgn m e =>
      let v := if 0 <=? e then Z.pos m * 2 ^ e else Z.pos m / 2 ^ (- e) in
      if sgn then - v else v
  | _ => 0
  end.

(** Conversion of a double to float, by rounding. *)
Definition doubleToFloat (a : spec_float) : float :=
  match a with
  | S754_finite sgn m e =>
      binary_normalize F32.prec F32.emax (if sgn then Z.neg m else Z.pos m) e sgn
  | _ => a
  end.

(** [CompareNeighborTupleSortByDecreasingLargestNumCoordsFunc]. *)
Definition largerSize (elem1 elem2 : CompareNeighborTuple) : bool := elem2.2 <? elem1.2.

(** [CompareNeighborTupleFunc]: by score, ties by decreasing pixel count. *)
Definition lessAlike (elem1 elem2 : CompareNeighborTuple) : bool :=
  if SFeqb elem1.1.1 elem2.1.1 then elem2.1.2 <? elem1.1.2
  else SFltb elem1.1.1 elem2.1.1.

(** What [std::sort] asks of its comparison: a strict weak ordering of
    the elements of the vector. *)
Definition strictWeakOrder (less : CompareNeighborTuple → CompareNeighborTuple → bool)
    (l : list CompareNeighborTuple) : Prop :=
  (∀ x, x ∈ l → less x x = false) ∧
  (∀ x y z, x ∈ l → y ∈ l → z ∈ l →
            less x y = true → less y z = true → less x z = true) ∧
  (∀ x y z, x ∈ l → y ∈ l → z ∈ l →
            less x y = false → less y z = false → less x z = false).

(** What is assumed of [std::sort]: given such a comparison it
    rearranges the vector.  The place it gives to elements that the
    comparison does not tell apart is left open, as the standard leaves
    it. *)
Definition rearranges
    (stdSort : (CompareNeighborTuple → CompareNeighborTuple → bool) →
               list CompareNeighborTuple → list CompareNeighborTuple) : Prop :=
  ∀ less l, strictWeakOrder less l → stdSort less l ≡ₚ l.

(** Merge sort, one of the sorting functions the standard admits; the
    examples run with it. *)
Definition mergeSort (less : CompareNeighborTuple → CompareNeighborTuple → bool)
    (tuples : list CompareNeighborTuple) : list CompareNeighborTuple :=
  merge_sort (fun a b => Is_true (negb (less b a))) tuples.

(** The tuples (UNUSED, UID, SIZE) of the neighbors. *)
Fixpoint sizeTuples (s : SuperpixelImage) (neighborList : list Z)
  : option (list CompareNeighborTuple) :=
  match neighborList with
  | [] => Some []
  | neighborTag :: rest =>
      spPtr ← getSuperpixelPtr s neighborTag;
      tuples ← sizeTuples s rest;
      Some ((F32.zero, neighborTag, Z.of_nat (length (coords spPtr))) :: tuples)
  end.

Section TinyRegions.

Variable sample_mean : list float → float.
Variable sample_mean_delta_squared_div : list float → float → float.

(** The similarity evaluator of section 4.4, an external collaborator:
    the histogram distance of two regions of the store. *)
Variable compareHist : SuperpixelImage → Z → Z → spec_float.

(** [std::sort] is library code and a parameter as well. *)
Variable stdSort : (CompareNeighborTuple → CompareNeighborTuple → bool) →
                   list CompareNeighborTuple → list CompareNeighborTuple.

(** [if (tuples.size() > 1) sort(tuples.begin(), tuples.end(), less)]. *)
Definition sortTuples (less : CompareNeighborTuple → CompareNeighborTuple → bool)
    (tuples : list CompareNeighborTuple) : list CompareNeighborTuple :=
  if (1 <? length tuples)%nat then stdSort less tuples else tuples.

(** The [while (1)] loop of [filterOutVeryLargeNeighbors]. *)
Fixpoint stddevLoop (tuples : list CompareNeighborTuple) (largeNeighbors : list Z)
  : option (list Z) :=
  match tuples with
  | [] => None (* sizesVec[0] of an empty vector *)
  | tuple :: rest =>
      match rest with
      | [] => Some largeNeighbors
      | _ =>
          let sizesVec := map (fun t : CompareNeighborTuple => F32.of_Z t.2) tuples in
          let mean := sample_mean sizesVec in
          let stddev := sample_mean_delta_squared_div sizesVec mean in
          maxSizeF ← head sizesVec;
          let maxSize := floatToInt maxSizeF in
          let stddevMin :=
            if F32.ltb stddev F32.one then F32.of_Z maxSize
            else if F32.ltb stddev (F32.of_Z MaxSmallNumPixelsVal) then F32.of_Z maxSize
            else F32.add mean (F32.mul stddev F32.half) in
          if F32.gtb (F32.of_Z maxSize) stddevMin
          then stddevLoop rest (largeNeighbors ++ [tuple.1.2])
          else Some largeNeighbors
      end
  end.

Definition filterOutVeryLargeNeighbors (s : SuperpixelImage) (t : Z) : option (list Z) :=
  tuples ← sizeTuples s (getNeighborsSet (edgeTable s) t);
  stddevLoop (sortTuples largerSize tuples) [].

(** The loop of [compareNeighborSuperpixels] over the neighbors. *)
Fixpoint compareTuples (s : SuperpixelImage) (t : Z) (lockedTablePtr : option (gmap Z bool))
    (neighborList : list Z) : option (list CompareNeighborTuple) :=
  match neighborList with
  | [] => Some []
  | neighborTag :: rest =>
      if match lockedTablePtr with
         | Some lockedTable => bool_decide (is_Some (lockedTable !! neighborTag))
         | None => false
         end
      then compareTuples s t lockedTablePtr rest
      else
        spPtr ← getSuperpixelPtr s neighborTag;
        results ← compareTuples s t lockedTablePtr rest;
        Some ((compareHist s t neighborTag, Z.of_nat (length (coords spPtr)), neighborTag)
                :: results)
  end.

Definition compareNeighborSuperpixels (s : SuperpixelImage) (t : Z)
    (lockedTablePtr : option (gmap Z bool)) : option (list CompareNeighborTuple) :=
  _ ← getSuperpixelPtr s t;
  results ← compareTuples s t lockedTablePtr (getNeighborsSet (edgeTable s) t);
  Some (sortTuples lessAlike results).

(** The table [locked] and the pointer handed to the comparison. *)
Definition lockedPtrOf (largeNeighbors : list Z) : option (gmap Z bool) :=
  match largeNeighbors with
  | [] => None
  | _ => Some (foldl (fun locked n => <[n := true]> locked) ∅ largeNeighbors)
  end.

(** Among the leading tuples whose score equals [tie], the last one; in
    [tie == get<0>(tuple)] the float is promoted to double. *)
Fixpoint lastOfTie (tie : float) (tuples : list CompareNeighborTuple) (minNeighbor : Z) : Z :=
  match tuples with
  | [] => minNeighbor
  | tuple :: rest =>
      if SFeqb (F64.of_float tie) tuple.1.1 then lastOfTie tie rest tuple.2 else minNeighbor
  end.

(** The choice of the neighbor to merge with in [mergeSmallSuperpixels]. *)
Definition pickSmallNeighbor (s : SuperpixelImage) (t : Z) : option Z :=
  largeNeighbors ← filterOutVeryLargeNeighbors s t;
  results ← compareNeighborSuperpixels s t (lockedPtrOf largeNeighbors);
  minTuple ← results !! 0%nat;
  match results !! 1%nat with
  | Some second =>
      if SFeqb minTuple.1.1 second.1.1
      then Some (lastOfTie (doubleToFloat minTuple.1.1) (drop 2 results) second.2)
      else Some minTuple.2
  | None => Some minTuple.2
  end.

(** One visit of the loop over the small regions: the store afterwards
    and whether the iterator moves on. *)
Definition smallSuperpixelStep (s : SuperpixelImage) (t : Z)
  : option (SuperpixelImage * bool) :=
  match getSuperpixelPtr s t with
  | None => Some (s, true)
  | Some spPtr =>
      if MaxSmallNumPixelsVal <=? Z.of_nat (length (coords spPtr)) then Some (s, true)
      else
        minNeighbor ← pickSmallNeighbor s t;
        s' ← mergeEdge s (mkEdge t minNeighbor);
        match getSuperpixelPtr s' t with
        | Some spPtr' =>
            Some (s', negb (Z.of_nat (length (coords spPtr')) <? MaxSmallNumPixelsVal))
        | None => Some (s', true)
        end
  end.

End TinyRegions.

(** Stand-ins for the evaluator in the examples: the distance of the
    tags as a double, and the score 0.5 for every pair. *)
Definition tagDistance (s : SuperpixelImage) (a b : Z) : spec_float :=
  F64.of_Z (Z.abs (a - b)).

Definition oneHalf : spec_float := SFdiv F64.prec F64.emax (F64.of_Z 1) (F64.of_Z 2).

Definition evenScore (s : SuperpixelImage) (a b : Z) : spec_float := oneHalf.

(** Three pixels of label 0 between a background of 100 pixels and a
    region of 4 pixels: the background is filtered out, the other stays. *)
Definition sliver : Mat :=
  mkMat 1 107 (fun y x => labelPixel (if x <? 100 then 1 else if x <? 103 then 0 else 2)).

Definition sliverStore : SuperpixelImage := default emptyImage (parsed sliver).

(** A single region of nine pixels: no neighbor at all. *)
Definition lonely : Mat := mkMat 3 3 (fun y x => labelPixel 4).

Definition lonelyStore : SuperpixelImage := default emptyImage (parsed lonely).

(** Four pixels in a square, each a region of its own: every region
    touches the three others. *)
Definition quad : Mat := mkMat 2 2 (fun y x => labelPixel (2 * y + x)).

Definition quadStore : SuperpixelImage := default emptyImage (parsed quad).

(** ** The filter keeps a neighbor *)

Definition tupleTag (t : CompareNeighborTuple) : Z := t.1.2.

(** ** The comparisons are strict weak orderings *)

(** The place of a number on the line of the numbers of its format: the
    sign class first, then exponent and mantissa. *)
Definition floatKey (a : spec_float) : Z * Z * Z :=
  match a with
  | S754_infinity true => (-2, 0, 0)
  | S754_finite true m e => (-1, - e, Z.neg m)
  | S754_zero _ => (0, 0, 0)
  | S754_finite false m e => (1, e, Z.pos m)
  | S754_infinity false => (2, 0, 0)
  | S754_nan => (3, 0, 0)
  end.

Definition keyLt (x y : Z * Z * Z) : Prop :=
  x.1.1 < y.1.1 ∨ (x.1.1 = y.1.1 ∧ (x.1.2 < y.1.2 ∨ (x.1.2 = y.1.2 ∧ x.2 < y.2))).

(** [CompareNeighborTupleFunc] in terms of the keys. *)
Definition alikeLt (a b : CompareNeighborTuple) : Prop :=
  let ka := floatKey a.1.1 in
  let kb := floatKey b.1.1 in
  ka.1.1 < kb.1.1 ∨
  (ka.1.1 = kb.1.1 ∧
   (ka.1.2 < kb.1.2 ∨
    (ka.1.2 = kb.1.2 ∧ (ka.2 < kb.2 ∨ (ka.2 = kb.2 ∧ b.1.2 < a.1.2))))).

(** The case analysis of a comparison of two finite numbers of one sign. *)
Ltac float_cases ea eb ma mb :=
  change (PosDef.Pos.compare_cont Eq ma mb) with (ma ?= mb)%positive;
  destruct (Z.compare_spec ea eb); destruct (Pos.compare_spec ma mb); simpl;
  split; intros; first [done | lia | exfalso; lia | congruence | simplify_eq; lia].

(** * The breadth-first strategies: lock bookkeeping *)

(** [CompareSuperpixelSizeDecreasingFunc]: larger regions first, smaller
    tags first among regions of one size. *)
Definition largerFirst (s : SuperpixelImage) (t1 t2 : Z) : bool :=
  if (numCoords s t1 =? numCoords s t2)%nat then t1 <? t2
  else (numCoords s t2 <? numCoords s t1)%nat.

(** Modelled from the spec: [sortSuperpixelsBySize] as the strategies
    call it, returning the sorted ids (section 4.1: descending by
    coordinate count, ties by ascending id).  The sources hold only the
    variant that rewrites the tag list in place, with the same
    comparison. *)
Definition sortSuperpixelsBySize (s : SuperpixelImage) : list Z :=
  merge_sort (fun a b => Is_true (negb (largerFirst s b a))) (superpixels s).

(** The state of the outer loop [while (!done)]. *)
Record SweepState := mkSweep {
  sw_image : SuperpixelImage;
  sw_locked : gmap Z bool;
  sw_mergesSinceLockClear : gmap Z bool;
  sw_sortedSuperpixels : list Z;
  sw_spIter : nat;
  sw_numLockClear : nat;
  sw_mergeIter : Z;
  sw_done : bool
}.

(** The scan for the next unlocked tag from the iterator on: the tag (or
    -1), the lock table and the iterator afterwards.  [locked[nextTag]]
    creates the entry it reads; [lockDead] is the extra test of
    [mergeBackprojectSuperpixels], which locks a tag that is gone. *)
Fixpoint findUnlocked (lockDead : bool) (s : SuperpixelImage) (rest : list Z)
    (locked : gmap Z bool) (spIter : nat) : Z * gmap Z bool * nat :=
  match rest with
  | [] => (-1, locked, spIter)
  | nextTag :: rest' =>
      let locked1 :=
        if lockDead && negb (bool_decide (is_Some (getSuperpixelPtr s nextTag)))
        then <[nextTag := true]> locked else locked in
      let isLocked := default false (locked1 !! nextTag) in
      let locked2 := <[nextTag := isLocked]> locked1 in
      if isLocked then findUnlocked lockDead s rest' locked2 (S spIter)
      else (nextTag, locked2, S spIter)
  end.

(** The loop that erases the lock of every key of [mergesSinceLockClear]. *)
Definition eraseLocks (locked : gmap Z bool) (merged : list Z) : gmap Z bool :=
  foldl (fun locked' m => if bool_decide (is_Some (locked' !! m))
                          then delete m locked' else locked') locked merged.

Section Sweeps.

(** Back-projection of the neighbors is the business of the similarity
    evaluator: the tuples of the unlocked neighbors that are alike. *)
Variable backprojectNeighborSuperpixels :
  SuperpixelImage → Z → gmap Z bool → list CompareNeighborTuple.

(** The inner loop [while (true)] of [mergeBredthFirstRecursive], which
    merges bin by bin under the edge-weight rule. *)
Variable expandBredthFirst : Z → SweepState → option SweepState.

(** The loop over [resultTuples] in [mergeBackprojectSuperpixels]. *)
Fixpoint mergeAlike (maxTag : Z) (resultTuples : list CompareNeighborTuple)
    (st : SweepState) : option SweepState :=
  match resultTuples with
  | [] => Some st
  | tuple :: rest =>
      s' ← mergeEdge (sw_image st) (mkEdge maxTag tuple.2);
      mergeAlike maxTag rest
        (mkSweep s' (sw_locked st) (<[maxTag := true]> (sw_mergesSinceLockClear st))
                 (sw_sortedSuperpixels st) (sw_spIter st) (sw_numLockClear st)
                 (sw_mergeIter st + 1) (sw_done st))
  end.

(** The inner loop [while (true)] of [mergeBackprojectSuperpixels]. *)
Fixpoint expandBackproject (fuel : nat) (maxTag : Z) (st : SweepState)
  : option SweepState :=
  match fuel with
  | O => None
  | S fuel' =>
      match getSuperpixelPtr (sw_image st) maxTag with
      | None => Some st
      | Some _ =>
          match backprojectNeighborSuperpixels (sw_image st) maxTag (sw_locked st) with
          | [] =>
              Some (mkSweep (sw_image st) (<[maxTag := true]> (sw_locked st))
                            (sw_mergesSinceLockClear st) (sw_sortedSuperpixels st)
                            (sw_spIter st) (sw_numLockClear st) (sw_mergeIter st)
                            (sw_done st))
          | resultTuples =>
              st' ← mergeAlike maxTag resultTuples st;
              expandBackproject fuel' maxTag st'
          end
      end
  end.

(** One turn of [while (!done)] in [mergeBackprojectSuperpixels]. *)
Definition backprojectSweepStep (fuel : nat) (st : SweepState) : option SweepState :=
  let '(maxTag, locked, spIter) :=
    findUnlocked true (sw_image st) (drop (sw_spIter st) (sw_sortedSuperpixels st))
                 (sw_locked st) (sw_spIter st) in
  if maxTag =? -1 then
    if (size (sw_mergesSinceLockClear st) =? 0)%nat
    then Some (mkSweep (sw_image st) locked (sw_mergesSinceLockClear st)
                       (sw_sortedSuperpixels st) spIter (sw_numLockClear st)
                       (sw_mergeIter st) true)
    else Some (mkSweep (sw_image st)
                       (eraseLocks locked (map_to_list (sw_mergesSinceLockClear st)).*1)
                       ∅ (sortSuperpixelsBySize (sw_image st)) 0
                       (S (sw_numLockClear st)) (sw_mergeIter st) (sw_done st))
  else
    expandBackproject fuel maxTag
      (mkSweep (sw_image st) locked (sw_mergesSinceLockClear st)
               (sw_sortedSuperpixels st) spIter (sw_numLockClear st)
               (sw_mergeIter st) (sw_done st)).

(** One turn of [while (!done)] in [mergeBredthFirstRecursive]: under
    [if (1)] the loop ends as soon as no unlocked tag is left, and the
    code after it is never reached. *)
Definition bredthFirstSweepStep (st : SweepState) : option SweepState :=
  let '(maxTag, locked, spIter) :=
    findUnlocked false (sw_image st) (drop (sw_spIter st) (sw_sortedSuperpixels st))
                 (sw_locked st) (sw_spIter st) in
  if maxTag =? -1 then
    Some (mkSweep (sw_image st) locked (sw_mergesSinceLockClear st)
                  (sw_sortedSuperpixels st) spIter (sw_numLockClear st)
                  (sw_mergeIter st) true)
  else
    expandBredthFirst maxTag
      (mkSweep (sw_image st) locked (sw_mergesSinceLockClear st)
               (sw_sortedSuperpixels st) spIter (sw_numLockClear st)
               (sw_mergeIter st) (sw_done st)).

End Sweeps.

(** The image of the stripes after region 1 has absorbed region 2, with
    both remaining regions locked and region 1 marked as merged. *)
Definition exhaustedSweep : SweepState :=
  mkSweep stripesMerged (<[1 := true]> (<[3 := true]> ∅)) (<[1 := true]> ∅)
          [1; 3] 0 0 1 false.

(** Stand-ins for the evaluator and the inner loop in the examples. *)
Definition noneAlike (s : SuperpixelImage) (t : Z) (locked : gmap Z bool)
  : list CompareNeighborTuple := [].

Definition noExpansion (t : Z) (st : SweepState) : option SweepState := Some st.

(** * Lemmas and theorems *)

(** ** The examples of the merge operator and of the parser *)

Example demo_merge_rows :
  (fun s => (superpixels s, getNeighbors (edgeTable s) 1, getNeighbors (edgeTable s) 3,
             length <$> (coords <$> getSuperpixelPtr s 1), coords <$> getSuperpixelPtr s 2))
    <$> mergeEdge demoImage (mkEdge 1 2)
  = Some ([1; 3], [3], [1], Some 13%nat, None).
Proof. vm_compute. reflexivity. Qed.

(** ** Lemmas on the sorted tag list *)

Lemma StronglySorted_lt_lookup (l : list Z) (i j : nat) (x y : Z) :
  StronglySorted Z.lt l → (i < j)%nat → l !! i = Some x → l !! j = Some y → x < y.
Proof.
  intros Hs. revert i j. induction Hs as [|a l Hs IH Hall]; intros i j Hij Hi Hj.
  - by rewrite lookup_nil in Hi.
  - destruct j as [|j]; [lia|]. destruct i as [|i]; simpl in *.
    + injection Hi as ->. rewrite Forall_forall in Hall.
      apply Hall, list_elem_of_lookup. eauto.
    + apply (IH i j); [lia|done..].
Qed.

Lemma StronglySorted_lt_NoDup (l : list Z) : StronglySorted Z.lt l → NoDup l.
Proof.
  induction 1 as [|a l Hs IH Hall]; constructor; [|done].
  intros Hin. rewrite Forall_forall in Hall.
  apply Hall in Hin. lia.
Qed.

Lemma StronglySorted_lt_delete (l : list Z) (i : nat) :
  StronglySorted Z.lt l → StronglySorted Z.lt (delete i l).
Proof.
  intros Hs. revert i. induction Hs as [|a l Hs IH Hall]; intros i; [constructor|].
  destruct i as [|i]; simpl; [done|].
  constructor; [apply IH|].
  rewrite Forall_forall in *. intros x Hx. apply Hall.
  by eapply list_elem_of_delete_inv.
Qed.

Lemma lower_bound_from_spec (fuel : nat) (l : list Z) (first len : nat) (val : Z) :
  StronglySorted Z.lt l → (len ≤ fuel)%nat → (first + len ≤ length l)%nat →
  let r := lower_bound_from fuel l first len val in
  (first ≤ r ≤ first + len)%nat ∧
  (∀ i x, (i < r)%nat → (first ≤ i)%nat → l !! i = Some x → x < val) ∧
  (∀ i x, (r ≤ i)%nat → (i < first + len)%nat → l !! i = Some x → val ≤ x).
Proof.
  intros Hs. revert first len.
  induction fuel as [|fuel IH]; intros first len Hfuel Hlen.
  { assert (len = 0%nat) as -> by lia. repeat split; simpl; intros; lia. }
  destruct len as [|len']; [repeat split; simpl; intros; lia|].
  cbv beta iota zeta delta [lower_bound_from]. fold lower_bound_from.
  set (len := S len') in *.
  assert (Hhalf : (len / 2 < len)%nat) by (apply Nat.div_lt; lia).
  destruct (lookup_lt_is_Some_2 l (first + len / 2)%nat) as [m Hm]; [lia|].
  rewrite Hm. destruct (Z.ltb_spec m val) as [Hlt|Hge].
  - destruct (IH (S (first + len / 2)) (len - len / 2 - 1)%nat) as (Hr & Hlo & Hhi); [lia..|].
    split; [lia|]. split.
    + intros i x Hi Hfi Hx.
      destruct (decide (i ≤ first + len / 2)%nat) as [Hle|Hgt].
      * destruct (decide (i = first + len / 2)%nat) as [->|Hne]; [congruence|].
        assert (x < m) by (apply (StronglySorted_lt_lookup l i (first + len / 2) x m Hs); [lia|done..]).
        lia.
      * apply (Hlo i x); [done|lia|done].
    + intros i x Hi Hfi Hx. apply (Hhi i x); [done|lia|done].
  - destruct (IH first (len / 2)%nat) as (Hr & Hlo & Hhi); [lia..|].
    split; [lia|]. split; [done|].
    intros i x Hi Hfi Hx.
    destruct (decide (i < first + len / 2)%nat) as [Hlt|Hnlt].
    + apply (Hhi i x); done.
    + destruct (decide (i = first + len / 2)%nat) as [->|Hne].
      { assert (x = m) by congruence. lia. }
      assert (m < x) by (apply (StronglySorted_lt_lookup l (first + len / 2) i m x Hs); [lia|done..]).
      lia.
Qed.

Lemma binary_search_iter_found (l : list Z) (val : Z) :
  StronglySorted Z.lt l → val ∈ l →
  ∃ pos, binary_search_iter l val = Some pos ∧ l !! pos = Some val.
Proof.
  intros Hs Hin. apply list_elem_of_lookup in Hin as [k Hk].
  pose proof (lookup_lt_Some _ _ _ Hk) as Hklen.
  destruct (lower_bound_from_spec (length l) l 0 (length l) val Hs) as (Hr & Hlo & Hhi);
    [lia..|].
  fold (lower_bound l val) in *. set (r := lower_bound l val) in *.
  assert (Hrk : (r ≤ k)%nat).
  { destruct (decide (r ≤ k)%nat); [done|].
    assert (val < val) by (apply (Hlo k val); [lia..|done]). lia. }
  destruct (lookup_lt_is_Some_2 l r) as [x Hx]; [lia|].
  assert (r = k) as Heq.
  { destruct (decide (r = k)); [done|].
    assert (x < val) by (apply (StronglySorted_lt_lookup l r k x val Hs); [lia|done..]).
    assert (val ≤ x) by (apply (Hhi r x); [lia..|done]). lia. }
  subst k. exists r. unfold binary_search_iter. fold r. rewrite Hk.
  by rewrite Z.ltb_irrefl.
Qed.

Lemma elem_of_delete_NoDup (l : list Z) (pos : nat) (v t : Z) :
  NoDup l → l !! pos = Some v → t ∈ delete pos l ↔ t ∈ l ∧ t ≠ v.
Proof.
  intros Hnd. revert pos. induction Hnd as [|a l Ha Hnd IH]; intros pos Hpos.
  - by rewrite lookup_nil in Hpos.
  - destruct pos as [|pos]; simpl in *.
    + injection Hpos as ->. rewrite elem_of_cons. intuition congruence.
    + assert (v ∈ l) by (apply list_elem_of_lookup; eauto).
      rewrite !elem_of_cons, (IH pos Hpos). intuition congruence.
Qed.

(** ** Lemmas on the edge table *)

Lemma getNeighbors_setNeighbors (t u : Z) (r : list Z) (et : SuperpixelEdgeTable) :
  getNeighbors (setNeighbors t r et) u = if decide (t = u) then r else getNeighbors et u.
Proof.
  unfold getNeighbors, setNeighbors; simpl. rewrite lookup_insert.
  by destruct (decide (t = u)).
Qed.

Lemma getNeighbors_eraseStrength (a b u : Z) (et : SuperpixelEdgeTable) :
  getNeighbors (eraseStrength a b et) u = getNeighbors et u.
Proof. reflexivity. Qed.

Lemma getNeighbors_removeNeighbors (t u : Z) (et : SuperpixelEdgeTable) :
  getNeighbors (removeNeighbors t et) u = if decide (t = u) then [] else getNeighbors et u.
Proof.
  unfold getNeighbors, removeNeighbors; simpl. rewrite lookup_delete.
  by destruct (decide (t = u)).
Qed.

Lemma neighbors_clearDstStrength (d : Z) (r : list Z) (et : SuperpixelEdgeTable) :
  neighbors (clearDstStrength d r et) = neighbors et.
Proof.
  unfold clearDstStrength. revert et. induction r as [|n r IH]; intros et; [done|].
  simpl. by rewrite IH.
Qed.

Lemma getNeighbors_clearDstStrength (d u : Z) (r : list Z) (et : SuperpixelEdgeTable) :
  getNeighbors (clearDstStrength d r et) u = getNeighbors et u.
Proof. unfold getNeighbors. by rewrite neighbors_clearDstStrength. Qed.

Lemma existsb_Zeqb (a : Z) (l : list Z) : existsb (Z.eqb a) l = true ↔ a ∈ l.
Proof.
  rewrite existsb_exists, list_elem_of_In. split.
  - intros (x & Hx & Heq). apply Z.eqb_eq in Heq. by subst.
  - intros Hin. exists a. split; [done|apply Z.eqb_refl].
Qed.

Lemma filter_ext_elem {A} (P Q : A → Prop) `{∀ x, Decision (P x)} `{∀ x, Decision (Q x)}
    (l : list A) :
  (∀ x, x ∈ l → P x ↔ Q x) → filter P l = filter Q l.
Proof.
  induction l as [|a l IH]; intros Hext; [done|].
  rewrite !filter_cons.
  assert (Ha : P a ↔ Q a) by (apply Hext; left).
  rewrite IH by (intros x Hx; apply Hext; by right).
  destruct (decide (P a)), (decide (Q a)); tauto.
Qed.

Lemma repairSrcNeighbors_rows (src dst : Z) (ns : list Z) (et : SuperpixelEdgeTable) :
  src ≠ dst → NoDup ns →
  (∀ n, n ∈ ns → n ≠ dst → src ∈ getNeighbors et n) →
  ∃ et', repairSrcNeighbors src dst ns et = Some et' ∧
         ∀ t, getNeighbors et' t = repairedRow et src dst ns t.
Proof.
  intros Hsd Hnd. revert et. induction Hnd as [|n rest Hn Hnd IH]; intros et Hsrc.
  { exists et. split; [done|]. intros t. unfold repairedRow.
    rewrite filter_nil, app_nil_r. destruct (decide (t = dst)) as [->|]; [done|].
    destruct (decide (t ∈ [])) as [Hin|]; [by apply elem_of_nil in Hin|done]. }
  simpl. destruct (Z.eqb_spec n dst) as [->|Hndst].
  - destruct (IH (eraseStrength src dst et)) as (et' & Hrun & Hrows).
    { intros m Hm Hmd. rewrite getNeighbors_eraseStrength. apply Hsrc; [by right|done]. }
    exists et'. split; [done|]. intros t. rewrite Hrows. unfold repairedRow.
    rewrite !getNeighbors_eraseStrength, filter_cons.
    destruct (decide (dst ≠ dst ∧ dst ∉ getNeighbors et dst)) as [[? _]|_]; [done|].
    destruct (decide (t = dst)) as [->|Htd]; [done|].
    destruct (decide (t ∈ rest)), (decide (t ∈ dst :: rest)) as [Hin|Hnin]; try done.
    + exfalso. apply Hnin. by right.
    + apply elem_of_cons in Hin as [?|?]; done.
  - rewrite !getNeighbors_eraseStrength.
    assert (Hfound : existsb (Z.eqb src) (getNeighbors et n) = true).
    { apply existsb_Zeqb, Hsrc; [by left|done]. }
    rewrite Hfound. simpl.
    set (others := filter (fun m => m ≠ src) (getNeighbors et n)).
    assert (Hdo : dst ∈ others ↔ dst ∈ getNeighbors et n).
    { unfold others. rewrite list_elem_of_filter. intuition congruence. }
    destruct (existsb (Z.eqb dst) others) eqn:Hex.
    + apply existsb_Zeqb in Hex. apply Hdo in Hex.
      destruct (IH (setNeighbors n others (eraseStrength src n et))) as (et' & Hrun & Hrows).
      { intros m Hm Hmd. rewrite getNeighbors_setNeighbors.
        destruct (decide (n = m)) as [->|]; [done|].
        rewrite getNeighbors_eraseStrength. apply Hsrc; [by right|done]. }
      exists et'. split; [done|]. intros t. rewrite Hrows. unfold repairedRow.
      rewrite !getNeighbors_setNeighbors, !getNeighbors_eraseStrength, filter_cons.
      destruct (decide (n = dst)); [done|].
      destruct (decide (n ≠ dst ∧ dst ∉ getNeighbors et n)) as [[_ ?]|_]; [done|].
      destruct (decide (t = dst)) as [->|Htd].
      { f_equal. apply filter_ext_elem. intros m Hm.
        rewrite getNeighbors_setNeighbors, getNeighbors_eraseStrength.
        destruct (decide (n = m)) as [->|]; [done|tauto]. }
      destruct (decide (n = t)) as [->|Hnt].
      { destruct (decide (t ∈ rest)); [done|].
        destruct (decide (t ∈ t :: rest)) as [_|Hnin]; [|exfalso; apply Hnin; by left].
        destruct (decide (dst ∈ getNeighbors et t)); [|done]. by rewrite app_nil_r. }
      destruct (decide (t ∈ rest)), (decide (t ∈ n :: rest)) as [Hin|Hnin]; try done.
      * exfalso. apply Hnin. by right.
      * apply elem_of_cons in Hin as [?|?]; done.
    + assert (Hnex : dst ∉ getNeighbors et n).
      { intros Hin. apply Hdo, existsb_Zeqb in Hin. congruence. }
      set (et2 := setNeighbors dst (getNeighbors et dst ++ [n]) (eraseStrength src n et)).
      destruct (IH (setNeighbors n (others ++ [dst]) et2)) as (et' & Hrun & Hrows).
      { intros m Hm Hmd. unfold et2. rewrite !getNeighbors_setNeighbors.
        destruct (decide (n = m)) as [->|]; [done|].
        destruct (decide (dst = m)) as [->|]; [done|].
        rewrite getNeighbors_eraseStrength. apply Hsrc; [by right|done]. }
      exists et'. split; [done|]. intros t. rewrite Hrows. unfold repairedRow, et2.
      rewrite !getNeighbors_setNeighbors, !getNeighbors_eraseStrength, filter_cons.
      destruct (decide (n = dst)); [done|].
      destruct (decide (dst = dst)); [|done].
      destruct (decide (n ≠ dst ∧ dst ∉ getNeighbors et n)) as [_|Hno]; [|tauto].
      destruct (decide (t = dst)) as [->|Htd].
      { rewrite <- app_assoc. simpl. do 2 f_equal. apply filter_ext_elem. intros m Hm.
        rewrite !getNeighbors_setNeighbors, getNeighbors_eraseStrength.
        destruct (decide (n = m)) as [->|]; [done|].
        destruct (decide (dst = m)) as [->|]; tauto. }
      destruct (decide (dst = t)); [done|].
      destruct (decide (n = t)) as [->|Hnt].
      { destruct (decide (t ∈ rest)); [done|].
        destruct (decide (t ∈ t :: rest)) as [_|Hnin]; [|exfalso; apply Hnin; by left].
        by destruct (decide (dst ∈ getNeighbors et t)). }
      destruct (decide (t ∈ rest)), (decide (t ∈ n :: rest)) as [Hin|Hnin]; try done.
      * exfalso. apply Hnin. by right.
      * apply elem_of_cons in Hin as [?|?]; done.
Qed.

Lemma wf_not_src_in_row (s : SuperpixelImage) (t n : Z) :
  wf s → n ∈ row s t → n ≠ t.
Proof. intros Hwf Hin ->. by apply (wf_irrefl s Hwf t). Qed.

Lemma mergeInto_merged (s : SuperpixelImage) (ksrc kdst : Z) (src dst : Superpixel) :
  wf s → tagToSuperpixelMap s !! ksrc = Some src → tagToSuperpixelMap s !! kdst = Some dst →
  ksrc ≠ kdst → ksrc ∈ row s kdst →
  ∃ s', mergeInto s ksrc src kdst dst = Some s' ∧ merged s ksrc kdst s'.
Proof.
  intros Hwf Hsrc Hdst Hne Hadj.
  pose proof (wf_tag s Hwf _ _ Hsrc) as Htsrc.
  pose proof (wf_tag s Hwf _ _ Hdst) as Htdst.
  unfold mergeInto. rewrite Htsrc, Htdst.
  destruct (binary_search_iter_found (superpixels s) ksrc) as (pos & Hbs & Hpos).
  { apply (wf_sorted s Hwf). } { apply (wf_live s Hwf). by exists src. }
  rewrite Hbs. simpl.
  assert (Hfound : existsb (Z.eqb ksrc) (getNeighbors (edgeTable s) kdst) = true)
    by by apply existsb_Zeqb.
  rewrite Hfound. simpl.
  set (et2 := setNeighbors kdst _ _).
  assert (Hrow2 : ∀ u, getNeighbors et2 u =
            if decide (kdst = u) then filter (fun n => n ≠ ksrc) (row s kdst) else row s u).
  { intros u. unfold et2. rewrite getNeighbors_setNeighbors.
    destruct (decide (kdst = u)); [done|]. by rewrite getNeighbors_clearDstStrength. }
  destruct (repairSrcNeighbors_rows ksrc kdst (getNeighbors et2 ksrc) et2)
    as (et3 & Hrun & Hrows); [done|..].
  { rewrite Hrow2. destruct (decide (kdst = ksrc)); [congruence|]. apply (wf_nodup s Hwf). }
  { intros n. rewrite !Hrow2. destruct (decide (kdst = ksrc)); [congruence|].
    intros Hn Hnd. destruct (decide (kdst = n)); [congruence|]. by apply (wf_sym s Hwf). }
  rewrite Hrun. simpl. eexists. split; [reflexivity|].
  assert (Hns : getNeighbors et2 ksrc = row s ksrc).
  { rewrite Hrow2. by destruct (decide (kdst = ksrc)); [congruence|]. }
  rewrite Hns in Hrows.
  assert (Hrow' : ∀ t, t ≠ ksrc →
            getNeighbors (removeNeighbors ksrc et3) t = repairedRow et2 ksrc kdst (row s ksrc) t).
  { intros t Ht. rewrite getNeighbors_removeNeighbors, Hrows.
    by destruct (decide (ksrc = t)); [congruence|]. }
  split; simpl.
  - apply lookup_delete_eq.
  - eexists. rewrite lookup_delete_ne, lookup_insert_eq by done.
    split; [reflexivity|]. split; [done|]. simpl.
    unfold numCoords. rewrite Hsrc, Hdst. simpl. apply length_app.
  - intros t Hts Htd. by rewrite lookup_delete_ne, !lookup_insert_ne.
  - apply StronglySorted_lt_delete, (wf_sorted s Hwf).
  - intros t. apply elem_of_delete_NoDup; [|done].
    apply StronglySorted_lt_NoDup, (wf_sorted s Hwf).
  - by exists pos.
  - unfold row; simpl. rewrite getNeighbors_removeNeighbors.
    by destruct (decide (ksrc = ksrc)).
  - intros t x Ht. unfold row at 1; simpl. rewrite (Hrow' t Ht).
    unfold repairedRow, contracted. rewrite !Hrow2.
    destruct (decide (kdst = kdst)); [|done].
    destruct (decide (t = kdst)) as [->|Htd].
    + rewrite elem_of_app, !list_elem_of_filter. split.
      * intros [[? ?]|[[? Hnx] ?]]; [tauto|]. right; left. tauto.
      * intros [[? ?]|[(_ & Hx & Hxd)|(-> & _ & ?)]]; [tauto| |done].
        destruct (decide (kdst ∈ getNeighbors et2 x)) as [Hin|Hnin]; [|tauto].
        rewrite Hrow2 in Hin. destruct (decide (kdst = x)); [congruence|].
        left. split; [by apply (wf_not_src_in_row s ksrc x)|by apply (wf_sym s Hwf)].
    + destruct (decide (kdst = t)); [congruence|].
      destruct (decide (t ∈ row s ksrc)) as [Hin|Hnin].
      * rewrite elem_of_app, list_elem_of_filter. split.
        -- intros [[? ?]|Hx]; [tauto|].
           destruct (decide (kdst ∈ row s t)); [by apply elem_of_nil in Hx|].
           apply list_elem_of_singleton in Hx. right; right. tauto.
        -- intros [[? ?]|[(? & _)|(-> & _ & _)]]; [tauto|done|].
           destruct (decide (kdst ∈ row s t)) as [Hd|Hd].
           ++ left. split; [congruence|done].
           ++ right. by apply list_elem_of_singleton.
      * split.
        -- intros Hx. left. split; [done|]. intros ->. apply Hnin. by apply (wf_sym s Hwf).
        -- intros [[? ?]|[(? & _)|(_ & ? & _)]]; done.
  - intros t. unfold row; simpl. rewrite getNeighbors_removeNeighbors.
    destruct (decide (ksrc = t)) as [|Hts]; [constructor|].
    rewrite Hrows. unfold repairedRow. rewrite !Hrow2.
    destruct (decide (kdst = kdst)); [|done].
    destruct (decide (t = kdst)) as [->|Htd].
    + apply NoDup_app. split; [apply NoDup_filter, (wf_nodup s Hwf)|].
      split; [|apply NoDup_filter, (wf_nodup s Hwf)].
      intros x Hx1 Hx2. apply list_elem_of_filter in Hx1 as [_ Hx1].
      apply list_elem_of_filter in Hx2 as [[Hxd Hnx] Hx2].
      apply Hnx. rewrite Hrow2. destruct (decide (kdst = x)); [congruence|].
      by apply (wf_sym s Hwf).
    + destruct (decide (kdst = t)); [congruence|].
      destruct (decide (t ∈ row s ksrc)); [|apply (wf_nodup s Hwf)].
      apply NoDup_app. split; [apply NoDup_filter, (wf_nodup s Hwf)|].
      destruct (decide (kdst ∈ row s t)) as [Hd|Hd].
      * split; [|constructor]. intros x _ Hx. by apply elem_of_nil in Hx.
      * split; [|apply NoDup_singleton]. intros x Hx1 Hx2.
        apply list_elem_of_singleton in Hx2 as ->.
        apply list_elem_of_filter in Hx1 as [_ Hx1]. done.
Qed.

Lemma merged_live (s s' : SuperpixelImage) (src dst t : Z) :
  src ≠ dst → merged s src dst s' → live s dst →
  live s' t ↔ live s t ∧ t ≠ src.
Proof.
  intros Hne Hm Hdst. unfold live.
  destruct (decide (t = src)) as [->|Hts].
  { rewrite (merged_src _ _ _ _ Hm). split; [by intros [? ?]|tauto]. }
  destruct (decide (t = dst)) as [->|Htd].
  { destruct (merged_dst _ _ _ _ Hm) as (sp & -> & _). split; [done|by eexists]. }
  rewrite (merged_others _ _ _ _ Hm t) by done. tauto.
Qed.

Lemma contracted_sym (s : SuperpixelImage) (src dst t x : Z) :
  wf s → src ≠ dst → t ≠ src → contracted s src dst t x →
  x ≠ src ∧ contracted s src dst x t.
Proof.
  intros Hwf Hne Hts [[Hx Hxs]|[(-> & Hx & Hxd)|(-> & Ht & Htd)]].
  - split; [done|]. left. split; [by apply (wf_sym s Hwf)|done].
  - split; [by apply (wf_not_src_in_row s src x)|]. right; right. done.
  - split; [congruence|]. right; left. done.
Qed.

Lemma merged_wf (s s' : SuperpixelImage) (src dst : Z) :
  wf s → src ≠ dst → live s dst → merged s src dst s' → wf s'.
Proof.
  intros Hwf Hne Hdst Hm. split.
  - apply (merged_sorted _ _ _ _ Hm).
  - intros t. rewrite (merged_tags _ _ _ _ Hm), (merged_live s s' src dst t) by done.
    by rewrite (wf_live s Hwf).
  - intros t sp Hsp.
    destruct (decide (t = src)) as [->|Hts].
    { by rewrite (merged_src _ _ _ _ Hm) in Hsp. }
    destruct (decide (t = dst)) as [->|Htd].
    { destruct (merged_dst _ _ _ _ Hm) as (sp' & Hsp' & Htag & _). congruence. }
    rewrite (merged_others _ _ _ _ Hm t) in Hsp by done. by apply (wf_tag s Hwf).
  - apply (merged_nodup _ _ _ _ Hm).
  - intros t Hin. destruct (decide (t = src)) as [->|Hts].
    { rewrite (merged_row_src _ _ _ _ Hm) in Hin. by apply elem_of_nil in Hin. }
    apply (merged_rows _ _ _ _ Hm) in Hin; [|done].
    destruct Hin as [[Hx _]|[(-> & _ & ?)|(-> & _ & ?)]]; [|done..].
    by apply (wf_irrefl s Hwf t).
  - intros t n Hin. destruct (decide (t = src)) as [->|Hts].
    { rewrite (merged_row_src _ _ _ _ Hm) in Hin. by apply elem_of_nil in Hin. }
    apply (merged_rows _ _ _ _ Hm) in Hin; [|done].
    apply contracted_sym in Hin as [Hns Hin]; [|done..].
    by apply (merged_rows _ _ _ _ Hm).
  - intros t n Hin. destruct (decide (t = src)) as [->|Hts].
    { rewrite (merged_row_src _ _ _ _ Hm) in Hin. by apply elem_of_nil in Hin. }
    apply (merged_rows _ _ _ _ Hm) in Hin; [|done].
    apply (merged_live s s' src dst t); [done..|]. split; [|done].
    destruct Hin as [[Hx _]|[(-> & _ & ?)|(-> & Ht & ?)]]; [|done|].
    + by apply (wf_row_live s Hwf t n).
    + apply (wf_row_live s Hwf t src). by apply (wf_sym s Hwf).
Qed.

Lemma wf_adjacency_ok (s : SuperpixelImage) : wf s → adjacency_ok s.
Proof.
  intros Hwf. split; [|apply (wf_irrefl s Hwf)].
  intros X Y _ _. split; apply (wf_sym s Hwf).
Qed.

Lemma mergeEdge_merged (s : SuperpixelImage) (e : SuperpixelEdge) :
  wf s → edgeA e ≠ edgeB e → live s (edgeA e) → live s (edgeB e) →
  edgeB e ∈ row s (edgeA e) →
  ∃ s', mergeEdge s e = Some s' ∧ merged s (loser s e) (survivor s e) s'.
Proof.
  intros Hwf Hne [spA HA] [spB HB] Hadj. unfold mergeEdge, getSuperpixelPtr.
  destruct (Z.eqb_spec (edgeA e) (edgeB e)) as [|_]; [done|]. simpl.
  rewrite HA, HB. simpl. unfold loser, survivor, numCoords. rewrite HA, HB. simpl.
  destruct (length (coords spB) <=? length (coords spA))%nat.
  - by apply mergeInto_merged.
  - apply mergeInto_merged; try done. by apply (wf_sym s Hwf).
Qed.

(** A merge that returns has passed every assertion of [mergeEdge]. *)
Lemma mergeEdge_Some_inv (s s' : SuperpixelImage) (e : SuperpixelEdge) :
  wf s → mergeEdge s e = Some s' →
  edgeA e ≠ edgeB e ∧ live s (edgeA e) ∧ live s (edgeB e) ∧ edgeB e ∈ row s (edgeA e).
Proof.
  intros Hwf. unfold mergeEdge, getSuperpixelPtr.
  destruct (Z.eqb_spec (edgeA e) (edgeB e)) as [|Hne]; [done|]. simpl.
  destruct (tagToSuperpixelMap s !! edgeA e) as [spA|] eqn:HA; [|done].
  destruct (tagToSuperpixelMap s !! edgeB e) as [spB|] eqn:HB; [|done]. simpl.
  pose proof (wf_tag s Hwf _ _ HA) as HtA. pose proof (wf_tag s Hwf _ _ HB) as HtB.
  intros Hrun. split; [done|]. split; [by eexists|]. split; [by eexists|].
  destruct (length (coords spB) <=? length (coords spA))%nat;
    unfold mergeInto in Hrun; rewrite HtA, HtB in Hrun;
    destruct (binary_search_iter _ _); try done; simpl in Hrun;
    destruct (existsb _ _) eqn:Hex; try done; apply existsb_Zeqb in Hex.
  - done.
  - by apply (wf_sym s Hwf).
Qed.

Lemma mergeEdge_wf (s s' : SuperpixelImage) (e : SuperpixelEdge) :
  wf s → mergeEdge s e = Some s' → wf s'.
Proof.
  intros Hwf Hrun.
  destruct (mergeEdge_Some_inv s s' e Hwf Hrun) as (Hne & HA & HB & Hadj).
  destruct (mergeEdge_merged s e) as (s'' & Hrun' & Hm); [done..|].
  assert (s'' = s') as -> by congruence.
  apply (merged_wf s s' (loser s e) (survivor s e)); [done| | |done];
    unfold loser, survivor; destruct (_ <=? _)%nat; done.
Qed.

(** ** Coordinate counts *)

Lemma sum_list_map_delete (f : Z → nat) (l : list Z) (pos : nat) (v : Z) :
  l !! pos = Some v →
  sum_list (map f l) = (f v + sum_list (map f (delete pos l)))%nat.
Proof.
  revert pos. induction l as [|a l IH]; intros pos Hpos; [by rewrite lookup_nil in Hpos|].
  destruct pos as [|pos]; simpl in *.
  - by injection Hpos as ->.
  - rewrite (IH pos Hpos). lia.
Qed.

Lemma sum_list_map_ext (f g : Z → nat) (l : list Z) :
  (∀ t, t ∈ l → g t = f t) → sum_list (map g l) = sum_list (map f l).
Proof.
  induction l as [|a l IH]; intros Hext; [done|]. simpl.
  rewrite IH by (intros t Ht; apply Hext; by right). rewrite Hext; [done|by left].
Qed.

Lemma sum_list_map_bump (f g : Z → nat) (l : list Z) (d : Z) (k : nat) :
  NoDup l → d ∈ l → g d = (f d + k)%nat → (∀ t, t ∈ l → t ≠ d → g t = f t) →
  sum_list (map g l) = (sum_list (map f l) + k)%nat.
Proof.
  intros Hnd. induction Hnd as [|a l Ha Hnd IH]; intros Hd Hgd Hext.
  { by apply elem_of_nil in Hd. }
  simpl. apply elem_of_cons in Hd as [->|Hd].
  - rewrite Hgd, (sum_list_map_ext f g l); [lia|].
    intros t Ht. apply Hext; [by right|]. by intros ->.
  - rewrite IH; [|done..|intros t Ht; apply Hext; by right].
    rewrite Hext; [lia|by left|]. by intros ->.
Qed.

Lemma merged_totalCoords (s s' : SuperpixelImage) (src dst : Z) :
  wf s → src ≠ dst → live s dst → merged s src dst s' →
  totalCoords s' = totalCoords s.
Proof.
  intros Hwf Hne Hdst Hm. unfold totalCoords.
  destruct (merged_pos _ _ _ _ Hm) as (pos & Hpos & Hl').
  rewrite (sum_list_map_delete (numCoords s) (superpixels s) pos src Hpos).
  rewrite (sum_list_map_bump (numCoords s) (numCoords s') (superpixels s') dst (numCoords s src)).
  - rewrite Hl'. lia.
  - apply StronglySorted_lt_NoDup, (merged_sorted _ _ _ _ Hm).
  - apply (merged_tags _ _ _ _ Hm). split; [by apply (wf_live s Hwf)|done].
  - destruct (merged_dst _ _ _ _ Hm) as (sp & Hsp & _ & Hlen).
    unfold numCoords at 1. by rewrite Hsp.
  - intros t Ht Htd. apply (merged_tags _ _ _ _ Hm) in Ht as [_ Hts].
    unfold numCoords. by rewrite (merged_others _ _ _ _ Hm t).
Qed.

Example parse_checkerboard :
  (fun s => (superpixels s, row s 1, row s 6, numCoords s 1, numCoords s 6))
    <$> parsed checkerboard
  = Some ([1; 6], [6], [1], 8%nat, 8%nat).
Proof. vm_compute. reflexivity. Qed.

Example parse_stripes :
  (fun s => (superpixels s, row s 1, row s 2, row s 3, numCoords s 1, numCoords s 2))
    <$> parsed stripes
  = Some ([1; 2; 3], [2], [1; 3], [2], 10%nat, 3%nat).
Proof. vm_compute. reflexivity. Qed.

Example parse_white_pixel :
  (fun r => r.1.1) <$> parse whitePixelImage emptyImage = Some false.
Proof. vm_compute. reflexivity. Qed.

(** ** Pixel labels *)

Lemma byteZ_range (b : byte) : 0 ≤ byteZ b ≤ 255.
Proof. unfold byteZ. pose proof (Byte.to_N_bounded b). lia. Qed.

Lemma byteZ_ucharOf (z : Z) : 0 ≤ z ≤ 255 → byteZ (ucharOf z) = z.
Proof.
  intros Hz. unfold ucharOf, byteZ.
  destruct (Byte.of_N (Z.to_N z)) as [b|] eqn:Hb; simpl.
  - apply Byte.to_of_N in Hb. rewrite Hb. lia.
  - apply Byte.of_N_None_iff in Hb. lia.
Qed.

Lemma testbit_small (a n k : Z) : 0 ≤ a < 2 ^ k → k ≤ n → Z.testbit a n = false.
Proof.
  intros Ha Hn.
  assert (0 ≤ k) by (destruct (decide (0 ≤ k)); [done|rewrite Z.pow_neg_r in Ha; lia]).
  rewrite <- (Z.mod_small a (2 ^ k)) by lia.
  apply Z.mod_pow2_bits_high. lia.
Qed.

Lemma land_255_range (a : Z) : 0 ≤ Z.land a 255 ≤ 255.
Proof.
  change 255 with (Z.ones 8) at 1 2. rewrite Z.land_ones by lia.
  pose proof (Z.mod_pos_bound a (2 ^ 8)). lia.
Qed.

Lemma testbit_land_255 (a n : Z) :
  0 ≤ n → Z.testbit (Z.land a 255) n = Z.testbit a n && (n <? 8).
Proof.
  intros Hn. change 255 with (Z.ones 8).
  by rewrite Z.land_spec, Z.testbit_ones_nonneg by lia.
Qed.

Lemma Vec3BToUID_range (v : Vec3b) : 0 ≤ Vec3BToUID v ≤ reservedTag.
Proof.
  destruct v as [[b0 b1] b2]. unfold Vec3BToUID, reservedTag.
  pose proof (byteZ_range b0). pose proof (byteZ_range b1). pose proof (byteZ_range b2).
  set (u := Z.lor _ _).
  assert (Hu : 0 ≤ u).
  { unfold u. rewrite !Z.lor_nonneg, !Z.shiftl_nonneg. lia. }
  assert (Hmod : u mod 2 ^ 24 = u).
  { apply Z.bits_inj'. intros n Hn.
    destruct (decide (n < 24)) as [Hlt|Hge]; [by rewrite Z.mod_pow2_bits_low|].
    rewrite Z.mod_pow2_bits_high by lia. unfold u.
    rewrite !Z.lor_spec, !Z.shiftl_spec by lia.
    rewrite (testbit_small (byteZ b2) (n - 16) 8), (testbit_small (byteZ b1) (n - 8) 8),
      (testbit_small (byteZ b0) n 8); [done|lia..]. }
  pose proof (Z.mod_pos_bound u (2 ^ 24)). lia.
Qed.

Lemma Vec3BToUID_UIDToVec3b (t : Z) : 0 ≤ t ≤ reservedTag → Vec3BToUID (UIDToVec3b t) = t.
Proof.
  intros Ht. unfold Vec3BToUID, UIDToVec3b, reservedTag in *.
  rewrite !byteZ_ucharOf by apply land_255_range.
  apply Z.bits_inj'. intros n Hn.
  rewrite !Z.lor_spec, !Z.shiftl_spec by lia.
  destruct (decide (n < 8)).
  { rewrite (Z.testbit_neg_r _ (n - 16)), (Z.testbit_neg_r _ (n - 8)) by lia.
    rewrite testbit_land_255 by lia. simpl.
    destruct (Z.ltb_spec n 8); [|lia]. by rewrite andb_true_r. }
  destruct (decide (n < 16)).
  { rewrite (Z.testbit_neg_r _ (n - 16)) by lia.
    rewrite !testbit_land_255, Z.shiftr_spec by lia.
    destruct (Z.ltb_spec (n - 8) 8); [|lia]. destruct (Z.ltb_spec n 8); [lia|].
    replace (n - 8 + 8) with n by lia. by rewrite !andb_true_r, andb_false_r, orb_false_r. }
  destruct (decide (n < 24)).
  { rewrite !testbit_land_255, !Z.shiftr_spec by lia.
    destruct (Z.ltb_spec (n - 16) 8); [|lia]. destruct (Z.ltb_spec (n - 8) 8); [lia|].
    destruct (Z.ltb_spec n 8); [lia|].
    replace (n - 16 + 16) with n by lia.
    by rewrite !andb_true_r, !andb_false_r, !orb_false_r. }
  rewrite !testbit_land_255, !Z.shiftr_spec by lia.
  destruct (Z.ltb_spec (n - 16) 8); [lia|]. destruct (Z.ltb_spec (n - 8) 8); [lia|].
  destruct (Z.ltb_spec n 8); [lia|].
  rewrite !andb_false_r. simpl. symmetry. apply (testbit_small t n 24); lia.
Qed.

(** ** The pixel order *)

Lemma elem_of_pixelOrder (m : Mat) (y x : Z) :
  (y, x) ∈ pixelOrder m ↔ (0 ≤ y < rows m) ∧ (0 ≤ x < cols m).
Proof.
  unfold pixelOrder. rewrite list_elem_of_bind. split.
  - intros (y' & Hx & Hy). apply elem_of_seqZ in Hy.
    apply list_elem_of_bind in Hx as (x' & Hp & Hx). apply elem_of_seqZ in Hx.
    apply list_elem_of_singleton in Hp. injection Hp as -> ->. lia.
  - intros [Hy Hx]. exists y. split; [|apply elem_of_seqZ; lia].
    apply list_elem_of_bind. exists x. split; [by apply list_elem_of_singleton|].
    apply elem_of_seqZ. lia.
Qed.

Lemma NoDup_pixelOrder (m : Mat) : NoDup (pixelOrder m).
Proof.
  unfold pixelOrder. apply NoDup_bind; [| |apply NoDup_seqZ].
  - intros y1 y2 p _ _ H1 H2.
    apply list_elem_of_bind in H1 as (x1 & H1 & _).
    apply list_elem_of_bind in H2 as (x2 & H2 & _).
    apply list_elem_of_singleton in H1, H2. congruence.
  - intros y _. apply NoDup_bind; [| |apply NoDup_seqZ].
    + intros x1 x2 p _ _ H1 H2. apply list_elem_of_singleton in H1, H2. congruence.
    + intros x _. apply NoDup_singleton.
Qed.

Lemma length_bind_const {A B} (f : A → list B) (l : list A) (k : nat) :
  (∀ y, length (f y) = k) → length (l ≫= f) = (length l * k)%nat.
Proof.
  intros Hf. induction l as [|y l IH]; [done|].
  rewrite bind_cons, length_app, IH, Hf. simpl. lia.
Qed.

Lemma length_pixelOrder (m : Mat) :
  length (pixelOrder m) = (Z.to_nat (rows m) * Z.to_nat (cols m))%nat.
Proof.
  unfold pixelOrder.
  rewrite (length_bind_const _ _ (Z.to_nat (cols m))), length_seqZ; [done|].
  intros y. rewrite (length_bind_const _ _ 1%nat), length_seqZ; [lia|done].
Qed.

Lemma label_mat_set (tags : Mat) (y x : Z) (v : Vec3b) (p : Z * Z) :
  p ≠ (y, x) → label (mat_set tags y x v) p = label tags p.
Proof.
  intros Hp. unfold label, mat_set. destruct p as [y' x']. simpl.
  by destruct (decide ((y', x') = (y, x))).
Qed.

Lemma coordsOf_mat_set (tags : Mat) (y x : Z) (v : Vec3b) (todo : list (Z * Z)) (t : Z) :
  (y, x) ∉ todo → coordsOf (mat_set tags y x v) todo t = coordsOf tags todo t.
Proof.
  intros Hnin. unfold coordsOf. f_equal. apply filter_ext_elem.
  intros p Hp. rewrite label_mat_set; [done|]. by intros ->.
Qed.

Lemma parsePixels_step_inv (m : gmap Z Superpixel) (t x y : Z) :
  tagsOk m →
  ∃ sp m1, match m !! t with
           | None => (mkSuperpixel t [] [] [], <[t := mkSuperpixel t [] [] []]> m)
           | Some sp => (sp, m)
           end = (sp, m1) ∧
    tag sp = t ∧ tagsOk (<[t := appendCoord sp x y]> m1) ∧
    ∀ u cs, grown (<[t := appendCoord sp x y]> m1) u cs =
            if decide (u = t) then grown m t (mkCoord x y :: cs) else grown m u cs.
Proof.
  intros Hok. destruct (m !! t) as [sp|] eqn:Hsp.
  - exists sp, m. split; [done|]. split; [by apply Hok|]. split.
    + intros u sp' Hu. destruct (decide (t = u)) as [<-|Hne].
      * rewrite lookup_insert_eq in Hu. injection Hu as <-. simpl. by apply Hok.
      * rewrite lookup_insert_ne in Hu by done. by apply Hok.
    + intros u cs. unfold grown. destruct (decide (u = t)) as [->|Hne].
      * rewrite lookup_insert_eq, Hsp. simpl. by rewrite <- app_assoc.
      * by rewrite lookup_insert_ne.
  - eexists _, _. split; [done|]. split; [done|]. split.
    + intros u sp' Hu. destruct (decide (t = u)) as [<-|Hne].
      * rewrite lookup_insert_eq in Hu. by injection Hu as <-.
      * rewrite !lookup_insert_ne in Hu by done. by apply Hok.
    + intros u cs. unfold grown. destruct (decide (u = t)) as [->|Hne].
      * by rewrite lookup_insert_eq, Hsp.
      * by rewrite !lookup_insert_ne.
Qed.

Lemma parsePixels_accepts (todo : list (Z * Z)) (tags : Mat) (m : gmap Z Superpixel) :
  NoDup todo → tagsOk m →
  (∀ p, p ∈ todo → label tags p ≠ reservedTag) →
  ∃ tags' m', parsePixels todo tags m = Some (true, tags', m') ∧
    rows tags' = rows tags ∧ cols tags' = cols tags ∧ tagsOk m' ∧
    (∀ p, label tags' p = if decide (p ∈ todo) then label tags p + 1 else label tags p) ∧
    (∀ t, m' !! t = grown m t (coordsOf tags todo t)).
Proof.
  intros Hnd. revert tags m.
  induction Hnd as [|[y x] rest Hp Hnd IH]; intros tags m Hok Hfree.
  { exists tags, m. repeat split; try done.
    intros t. unfold grown, coordsOf. simpl.
    destruct (m !! t) as [[? ? ? ?]|]; [|done]. simpl. by rewrite app_nil_r. }
  simpl. assert (Hl : label tags (y, x) ≠ reservedTag) by (apply Hfree; left).
  unfold label in Hl; simpl in Hl.
  pose proof (Vec3BToUID_range (at_ tags y x)) as Hr.
  destruct (Z.eqb_spec (Vec3BToUID (at_ tags y x)) reservedTag) as [|_]; [done|].
  destruct (Z.ltb_spec (Vec3BToUID (at_ tags y x)) reservedTag) as [Hlt|]; [|lia]. simpl.
  set (t1 := Vec3BToUID (at_ tags y x) + 1) in *.
  destruct (parsePixels_step_inv m t1 x y Hok) as (sp & m1 & -> & Htag & Hok1 & Hgrown).
  rewrite Htag, Z.eqb_refl. simpl.
  set (tags1 := mat_set tags y x (UIDToVec3b t1)).
  destruct (IH tags1 (<[t1 := appendCoord sp x y]> m1) Hok1)
    as (tags' & m' & Hrun & Hrows & Hcols & Hok' & Hlab & Hm').
  { intros p Hin. unfold tags1. rewrite label_mat_set; [apply Hfree; by right|].
    by intros ->. }
  exists tags', m'. split; [done|]. split; [done|]. split; [done|]. split; [done|]. split.
  - intros p. rewrite Hlab. destruct (decide (p = (y, x))) as [->|Hne].
    + destruct (decide ((y, x) ∈ rest)); [done|].
      destruct (decide ((y, x) ∈ (y, x) :: rest)) as [_|Hn]; [|exfalso; apply Hn; by left].
      unfold tags1, label, mat_set. simpl.
      destruct (decide ((y, x) = (y, x))); [|done].
      apply Vec3BToUID_UIDToVec3b. unfold t1. lia.
    + unfold tags1. rewrite label_mat_set by done.
      destruct (decide (p ∈ rest)), (decide (p ∈ (y, x) :: rest)) as [Hin|Hnin]; try done.
      * exfalso. apply Hnin. by right.
      * apply elem_of_cons in Hin as [?|?]; done.
  - intros t. rewrite Hm', Hgrown. unfold tags1. rewrite coordsOf_mat_set by done.
    unfold coordsOf at 2 3. rewrite filter_cons. unfold label at 2 3. simpl. fold t1.
    destruct (decide (t = t1)) as [->|Hne].
    + by destruct (decide (t1 = t1)).
    + by destruct (decide (t1 = t)); [congruence|].
Qed.

Lemma parsePixels_rejects (todo : list (Z * Z)) (tags : Mat) (m : gmap Z Superpixel) :
  tagsOk m → (∃ p, p ∈ todo ∧ label tags p = reservedTag) →
  ∃ tags' m', parsePixels todo tags m = Some (false, tags', m').
Proof.
  revert tags m. induction todo as [|[y x] rest IH]; intros tags m Hok (p & Hin & Hp).
  { by apply elem_of_nil in Hin. }
  simpl. pose proof (Vec3BToUID_range (at_ tags y x)) as Hr.
  destruct (Z.eqb_spec (Vec3BToUID (at_ tags y x)) reservedTag) as [|Hne]; [by eexists _, _|].
  destruct (Z.ltb_spec (Vec3BToUID (at_ tags y x)) reservedTag) as [Hlt|]; [|lia]. simpl.
  set (t1 := Vec3BToUID (at_ tags y x) + 1) in *.
  destruct (parsePixels_step_inv m t1 x y Hok) as (sp & m1 & -> & Htag & Hok1 & _).
  rewrite Htag, Z.eqb_refl. simpl. apply IH; [done|].
  assert (p ≠ (y, x)) by (intros ->; by unfold label in Hp).
  exists p. split; [|by rewrite label_mat_set].
  apply elem_of_cons in Hin as [?|?]; done.
Qed.

Lemma noteNeighbor_fold (c : Z) (f : Z * Z → Z) (ds : list (Z * Z)) (vec0 : list Z) :
  let vec := foldl (fun vec d => noteNeighbor c vec (f d)) vec0 ds in
  (∀ x, x ∈ vec ↔ x ∈ vec0 ∨ ∃ d, d ∈ ds ∧ f d = x ∧ x ≠ -1 ∧ x ≠ c) ∧
  (NoDup vec0 → NoDup vec).
Proof.
  revert vec0. induction ds as [|d ds IH]; intros vec0; simpl.
  { split; [|done]. intros x. split; [by left|].
    intros [?|(d & Hd & _)]; [done|by apply elem_of_nil in Hd]. }
  destruct (IH (noteNeighbor c vec0 (f d))) as [Hmem Hnd].
  assert (Hstep : ∀ x, x ∈ noteNeighbor c vec0 (f d) ↔
                       x ∈ vec0 ∨ (f d = x ∧ x ≠ -1 ∧ x ≠ c)).
  { intros x. unfold noteNeighbor.
    destruct (Z.eqb_spec (f d) (-1)); simpl; [intuition congruence|].
    destruct (Z.eqb_spec (f d) c); simpl; [intuition congruence|].
    destruct (existsb (Z.eqb (f d)) vec0) eqn:Hex.
    - apply existsb_Zeqb in Hex. intuition congruence.
    - rewrite elem_of_app, list_elem_of_singleton. intuition congruence. }
  split.
  - intros x. rewrite Hmem, Hstep. split.
    + intros [[?|?]|(d' & Hd' & ?)]; [by left|right; exists d; split; [by left|done]|].
      right. exists d'. split; [by right|done].
    + intros [?|(d' & Hd' & Hx)]; [by left; left|].
      apply elem_of_cons in Hd' as [->|Hd']; [by left; right|].
      right. by exists d'.
  - intros Hnd0. apply Hnd. unfold noteNeighbor.
    destruct ((f d =? -1) || (f d =? c)); [done|].
    destruct (existsb (Z.eqb (f d)) vec0) eqn:Hex; [done|].
    apply NoDup_app. split; [done|]. split; [|apply NoDup_singleton].
    intros x Hx Hx'. apply list_elem_of_singleton in Hx' as ->.
    apply existsb_Zeqb in Hx. congruence.
Qed.

Lemma scanPixel_fold (tags : Mat) (todo : list (Z * Z)) (tn : gmap Z (list Z)) :
  let tn' := foldl (scanPixel tags) tn todo in
  (∀ t x, x ∈ tableRow tn' t ↔ x ∈ tableRow tn t ∨ seenFrom tags todo t x) ∧
  ((∀ t, NoDup (tableRow tn t)) → ∀ t, NoDup (tableRow tn' t)).
Proof.
  revert tn. induction todo as [|p todo IH]; intros tn; simpl.
  { split; [|done]. intros t x. split; [by left|].
    intros [?|(p & d & Hp & _)]; [done|by apply elem_of_nil in Hp]. }
  destruct (IH (scanPixel tags tn p)) as [Hmem Hnd].
  pose proof (noteNeighbor_fold (label tags p) (foundNeighborUID tags p.1 p.2)
                neighborOffsets (tableRow tn (label tags p))) as [Hvec Hvnd].
  assert (Hrow : ∀ t, tableRow (scanPixel tags tn p) t =
            if decide (label tags p = t)
            then foldl (fun vec d => noteNeighbor (label tags p) vec
                                       (foundNeighborUID tags p.1 p.2 d))
                       (tableRow tn (label tags p)) neighborOffsets
            else tableRow tn t).
  { intros t. unfold tableRow, scanPixel. fold (label tags p).
    rewrite lookup_insert. by destruct (decide (label tags p = t)). }
  split.
  - intros t x. rewrite Hmem, Hrow. destruct (decide (label tags p = t)) as [<-|Hne].
    + rewrite Hvec. split.
      * intros [[?|(d & Hd & Hf & ?)]|(p' & d & Hp' & Hrest)]; [by left| |].
        -- right. exists p, d. split; [by left|done].
        -- right. exists p', d. split; [by right|done].
      * intros [?|(p' & d & Hp' & Hd & Hl & Hf & Hx)]; [by left; left|].
        apply elem_of_cons in Hp' as [->|Hp'].
        -- left; right. by exists d.
        -- right. exists p', d. done.
    + split.
      * intros [?|(p' & d & Hp' & Hrest)]; [by left|].
        right. exists p', d. split; [by right|done].
      * intros [?|(p' & d & Hp' & Hd & Hl & Hrest)]; [by left|].
        apply elem_of_cons in Hp' as [->|Hp']; [done|].
        right. by exists p', d.
  - intros Hnd0. apply Hnd. intros t. rewrite Hrow.
    destruct (decide (label tags p = t)); [apply Hvnd|]; apply Hnd0.
Qed.

Lemma storeRows_rows (many : bool) (tn : gmap Z (list Z)) (tagList : list Z)
    (et : SuperpixelEdgeTable) :
  (many = true → ∀ t, t ∈ tagList → tableRow tn t ≠ []) →
  ∃ et', storeRows many tn tagList et = Some et' ∧
         ∀ t, getNeighbors et' t =
              if decide (t ∈ tagList) then tableRow tn t else getNeighbors et t.
Proof.
  revert et. induction tagList as [|a l IH]; intros et Hne; simpl.
  { exists et. split; [done|]. intros t.
    destruct (decide (t ∈ [])) as [Hin|]; [by apply elem_of_nil in Hin|done]. }
  fold (tableRow tn a).
  assert (Hassert : implb many (0 <? Z.of_nat (length (tableRow tn a))) = true).
  { destruct many; [|done]. simpl. apply Z.ltb_lt.
    specialize (Hne eq_refl a). destruct (tableRow tn a); [|simpl; lia].
    exfalso. apply Hne; [by left|done]. }
  rewrite Hassert. simpl.
  destruct (IH (setNeighbors a (tableRow tn a) et)) as (et' & Hrun & Hrows).
  { intros Hm t Ht. apply Hne; [done|by right]. }
  exists et'. split; [done|]. intros t. rewrite Hrows, getNeighbors_setNeighbors.
  destruct (decide (t ∈ l)), (decide (t ∈ a :: l)) as [Hin|Hnin]; try done.
  - exfalso. apply Hnin. by right.
  - apply elem_of_cons in Hin as [->|?]; [|done]. by destruct (decide (a = a)).
  - destruct (decide (a = t)) as [->|]; [|done]. exfalso. apply Hnin. by left.
Qed.

(** In-range offsets lead to pixels of the image, and back. *)
Lemma foundNeighborUID_inv (tags : Mat) (y x : Z) (d : Z * Z) (v : Z) :
  foundNeighborUID tags y x d = v → v ≠ -1 →
  (y + d.2, x + d.1) ∈ pixelOrder tags ∧ label tags (y + d.2, x + d.1) = v.
Proof.
  unfold foundNeighborUID. rewrite elem_of_pixelOrder.
  destruct (Z.ltb_spec (x + d.1) 0); simpl; [congruence|].
  destruct (Z.leb_spec (cols tags) (x + d.1)); simpl; [congruence|].
  destruct (Z.ltb_spec (y + d.2) 0); simpl; [congruence|].
  destruct (Z.leb_spec (rows tags) (y + d.2)); simpl; [congruence|].
  intros <- _. split; [lia|done].
Qed.

Lemma foundNeighborUID_in_range (tags : Mat) (y x : Z) (d : Z * Z) :
  (y + d.2, x + d.1) ∈ pixelOrder tags →
  foundNeighborUID tags y x d = label tags (y + d.2, x + d.1).
Proof.
  rewrite elem_of_pixelOrder. intros [Hy Hx]. unfold foundNeighborUID.
  destruct (Z.ltb_spec (x + d.1) 0); simpl; [lia|].
  destruct (Z.leb_spec (cols tags) (x + d.1)); simpl; [lia|].
  destruct (Z.ltb_spec (y + d.2) 0); simpl; [lia|].
  destruct (Z.leb_spec (rows tags) (y + d.2)); simpl; [lia|done].
Qed.

Lemma neighborOffsets_opp (d : Z * Z) :
  d ∈ neighborOffsets → (- d.1, - d.2) ∈ neighborOffsets.
Proof.
  unfold neighborOffsets. rewrite !elem_of_cons, elem_of_nil.
  intros H. repeat (destruct H as [->|H]; [simpl; tauto|]). done.
Qed.

Lemma label_nonneg (tags : Mat) (p : Z * Z) : 0 ≤ label tags p.
Proof. unfold label. pose proof (Vec3BToUID_range (at_ tags p.1 p.2)). lia. Qed.

Lemma seenFrom_sym (tags : Mat) (t x : Z) :
  seenFrom tags (pixelOrder tags) t x → seenFrom tags (pixelOrder tags) x t.
Proof.
  intros ([y x0] & d & Hp & Hd & Hl & Hf & Hx1 & Hxt). simpl in *.
  destruct (foundNeighborUID_inv tags y x0 d x Hf Hx1) as [Hq Hlq].
  exists (y + d.2, x0 + d.1), (- d.1, - d.2). simpl.
  split; [done|]. split; [by apply neighborOffsets_opp|]. split; [done|].
  assert (Hback : (y + d.2 + - d.2, x0 + d.1 + - d.1) = (y, x0)) by (f_equal; lia).
  rewrite foundNeighborUID_in_range; simpl; rewrite Hback; [|done].
  split; [done|]. split; [|congruence].
  pose proof (label_nonneg tags (y, x0)). lia.
Qed.

(** Two labels in one image: every label touches another one somewhere.
    The walk goes from a pixel of [t] towards a pixel of another label,
    one of the four axis steps at a time. *)
Lemma seenFrom_walk (tags : Mat) (t : Z) (n : nat) :
  ∀ p q, p ∈ pixelOrder tags → q ∈ pixelOrder tags →
    label tags p = t → label tags q ≠ t →
    Z.abs (q.1 - p.1) + Z.abs (q.2 - p.2) ≤ Z.of_nat n →
    ∃ x, seenFrom tags (pixelOrder tags) t x.
Proof.
  induction n as [|n IH]; intros [py px] [qy qx] Hp Hq Hlp Hlq Hdist; simpl in *.
  { assert (qy = py ∧ qx = px) as [-> ->] by lia. done. }
  apply elem_of_pixelOrder in Hp as Hp'. apply elem_of_pixelOrder in Hq as Hq'.
  assert (Hstep : ∃ d, d ∈ neighborOffsets ∧
            (py + d.2, px + d.1) ∈ pixelOrder tags ∧
            Z.abs (qy - (py + d.2)) + Z.abs (qx - (px + d.1)) ≤ Z.of_nat n).
  { destruct (Z.lt_trichotomy px qx) as [Hx|[Hx|Hx]].
    - exists (1, 0). simpl. rewrite elem_of_pixelOrder. unfold neighborOffsets.
      split; [in_list|lia].
    - destruct (Z.lt_trichotomy py qy) as [Hy|[Hy|Hy]].
      + exists (0, 1). simpl. rewrite elem_of_pixelOrder. unfold neighborOffsets.
        split; [in_list|lia].
      + subst. congruence.
      + exists (0, -1). simpl. rewrite elem_of_pixelOrder. unfold neighborOffsets.
        split; [in_list|lia].
    - exists (-1, 0). simpl. rewrite elem_of_pixelOrder. unfold neighborOffsets.
      split; [in_list|lia]. }
  destruct Hstep as (d & Hd & Hp1 & Hdist1).
  destruct (decide (label tags (py + d.2, px + d.1) = t)) as [Heq|Hne].
  - apply (IH (py + d.2, px + d.1) (qy, qx)); done.
  - exists (label tags (py + d.2, px + d.1)), (py, px), d. simpl.
    split; [done|]. split; [done|]. split; [done|].
    split; [by apply foundNeighborUID_in_range|]. split; [|done].
    pose proof (label_nonneg tags (py + d.2, px + d.1)). lia.
Qed.

Lemma seenFrom_mixed (tags : Mat) (p q : Z * Z) :
  p ∈ pixelOrder tags → q ∈ pixelOrder tags → label tags p ≠ label tags q →
  ∃ x, seenFrom tags (pixelOrder tags) (label tags p) x.
Proof.
  intros Hp Hq Hne.
  apply (seenFrom_walk tags (label tags p)
           (Z.to_nat (Z.abs (q.1 - p.1) + Z.abs (q.2 - p.2))) p q); try done; lia.
Qed.

(** ** The sorted tag list built by [parse] *)

Lemma StronglySorted_le_lt (l : list Z) :
  StronglySorted Z.le l → NoDup l → StronglySorted Z.lt l.
Proof.
  induction 1 as [|a l Hs IH Hall]; intros Hnd; [constructor|].
  apply NoDup_cons in Hnd as [Ha Hnd]. constructor; [by apply IH|].
  rewrite Forall_forall in *. intros x Hx. specialize (Hall x Hx).
  assert (x ≠ a) by (by intros ->). lia.
Qed.

Lemma sorted_keys (m : gmap Z Superpixel) :
  let l := merge_sort Z.le ((map_to_list m).*1) in
  StronglySorted Z.lt l ∧ (∀ t, t ∈ l ↔ is_Some (m !! t)) ∧ length l = size m.
Proof.
  simpl. pose proof (merge_sort_Permutation Z.le ((map_to_list m).*1)) as Hperm.
  split; [|split].
  - apply StronglySorted_le_lt; [apply StronglySorted_merge_sort; apply _|].
    rewrite Hperm. apply NoDup_fst_map_to_list.
  - intros t. rewrite Hperm, list_elem_of_fmap. split.
    + intros ([k v] & -> & Hin). apply elem_of_map_to_list in Hin. by exists v.
    + intros [v Hv]. exists (t, v). split; [done|]. by apply elem_of_map_to_list.
  - by rewrite Hperm, length_fmap, length_map_to_list.
Qed.

Lemma grown_empty_live (tags : Mat) (todo : list (Z * Z)) (t : Z) :
  is_Some (grown ∅ t (coordsOf tags todo t)) ↔ ∃ p, p ∈ todo ∧ label tags p + 1 = t.
Proof.
  unfold grown, coordsOf. rewrite lookup_empty.
  destruct (filter _ todo) as [|p l] eqn:Hf; simpl.
  - split; [by intros [? ?]|]. intros (p & Hp & Hl).
    assert (p ∈ filter (fun p => label tags p + 1 = t) todo)
      by (by apply list_elem_of_filter).
    rewrite Hf in H. by apply elem_of_nil in H.
  - split; [|by eexists]. intros _. exists p.
    assert (Hin : p ∈ filter (fun p => label tags p + 1 = t) todo) by (rewrite Hf; by left).
    apply list_elem_of_filter in Hin. tauto.
Qed.

Lemma parsedAs_pixelOrder (tags tags' : Mat) (s : SuperpixelImage) :
  parsedAs tags tags' s → pixelOrder tags' = pixelOrder tags.
Proof. intros H. unfold pixelOrder. by rewrite (pa_rows _ _ _ H), (pa_cols _ _ _ H). Qed.

Lemma parsedAs_live (tags tags' : Mat) (s : SuperpixelImage) (t : Z) :
  parsedAs tags tags' s →
  live s t ↔ ∃ p, p ∈ pixelOrder tags ∧ label tags p + 1 = t.
Proof. intros H. unfold live. rewrite (pa_regions _ _ _ H). apply grown_empty_live. Qed.

Lemma parsedAs_label_live (tags tags' : Mat) (s : SuperpixelImage) (p : Z * Z) :
  parsedAs tags tags' s → p ∈ pixelOrder tags' → live s (label tags' p).
Proof.
  intros H Hp. rewrite (parsedAs_pixelOrder _ _ _ H) in Hp.
  apply (parsedAs_live tags tags' s); [done|]. exists p. split; [done|].
  rewrite (pa_labels _ _ _ H). by destruct (decide (p ∈ pixelOrder tags)).
Qed.

Lemma parsedAs_wf (tags tags' : Mat) (s : SuperpixelImage) :
  parsedAs tags tags' s → wf s.
Proof.
  intros H. split.
  - apply (pa_sorted _ _ _ H).
  - apply (pa_tags _ _ _ H).
  - intros t sp. rewrite (pa_regions _ _ _ H). unfold grown. rewrite lookup_empty.
    destruct (coordsOf _ _ _); [done|]. by intros [= <-].
  - apply (pa_nodup _ _ _ H).
  - intros t Hin. apply (pa_row _ _ _ H) in Hin as (p & d & _ & _ & _ & _ & _ & Hne). done.
  - intros t n Hin. apply (pa_row _ _ _ H). apply seenFrom_sym. by apply (pa_row _ _ _ H).
  - intros t n Hin. apply (pa_row _ _ _ H) in Hin as (p & d & Hp & _ & <- & _).
    by apply (parsedAs_label_live tags tags' s).
Qed.

Lemma NoDup_other (l : list Z) (t : Z) :
  NoDup l → t ∈ l → (1 < length l)%nat → ∃ u, u ∈ l ∧ u ≠ t.
Proof.
  intros Hnd Ht Hlen. destruct l as [|a [|b l]]; simpl in *; [lia..|].
  apply NoDup_cons in Hnd as [Hab _].
  destruct (decide (t = a)) as [->|Hne].
  - exists b. split; [by right; left|]. intros ->. apply Hab. by left.
  - exists a. split; [by left|done].
Qed.

Lemma parse_accepts (tags : Mat) :
  (∀ p, p ∈ pixelOrder tags → label tags p ≠ reservedTag) →
  ∃ tags' s, parse tags emptyImage = Some (true, tags', s) ∧ parsedAs tags tags' s.
Proof.
  intros Hfree. unfold parse. simpl.
  destruct (parsePixels_accepts (pixelOrder tags) tags ∅)
    as (tags' & m & -> & Hrows & Hcols & Hok & Hlab & Hm);
    [apply NoDup_pixelOrder|by intros t sp; rewrite lookup_empty|done|].
  simpl. destruct (sorted_keys m) as (Hsorted & Hkeys & Hlen).
  rewrite length_fmap, length_map_to_list, Nat.eqb_refl. simpl.
  set (tagList := merge_sort Z.le _) in *.
  unfold parseSuperpixelEdges. simpl.
  pose proof (scanPixel_fold tags' (pixelOrder tags') ∅) as [Hscan Hscan_nd].
  set (tn := foldl (scanPixel tags') ∅ (pixelOrder tags')) in *.
  assert (Horder : pixelOrder tags' = pixelOrder tags).
  { unfold pixelOrder. by rewrite Hrows, Hcols. }
  assert (Hlive : ∀ t, is_Some (m !! t) ↔ ∃ p, p ∈ pixelOrder tags ∧ label tags p + 1 = t).
  { intros t. rewrite Hm. apply grown_empty_live. }
  assert (Hlab' : ∀ p, p ∈ pixelOrder tags → label tags' p = label tags p + 1).
  { intros p Hp. rewrite Hlab. by destruct (decide (p ∈ pixelOrder tags)). }
  assert (Hseen : ∀ t x, x ∈ tableRow tn t ↔ seenFrom tags' (pixelOrder tags') t x).
  { intros t x. rewrite Hscan. unfold tableRow at 1. rewrite lookup_empty. simpl.
    rewrite elem_of_nil. tauto. }
  destruct (storeRows_rows (1 <? Z.of_nat (length tagList)) tn tagList (mkEdgeTable ∅ ∅))
    as (et & -> & Het).
  { intros Hmany t Ht. apply Z.ltb_lt in Hmany.
    destruct (NoDup_other tagList t) as (u & Hu & Hne);
      [by apply StronglySorted_lt_NoDup|done|lia|].
    apply Hkeys, Hlive in Ht as (p & Hp & Hpt). apply Hkeys, Hlive in Hu as (q & Hq & Hqu).
    destruct (seenFrom_mixed tags' p q) as (x & Hx).
    { by rewrite Horder. } { by rewrite Horder. }
    { rewrite !Hlab' by done. lia. }
    rewrite Hlab', Hpt in Hx by done. apply Hseen in Hx.
    intros Hnil. rewrite Hnil in Hx. by apply elem_of_nil in Hx. }
  simpl. eexists _, _. split; [reflexivity|].
  assert (Hrow : ∀ t x, x ∈ getNeighbors et t ↔ seenFrom tags' (pixelOrder tags') t x).
  { intros t x. rewrite Het. destruct (decide (t ∈ tagList)) as [Hin|Hnin]; [apply Hseen|].
    unfold getNeighbors. simpl. rewrite lookup_empty. simpl. split.
    - intros Hx. by apply elem_of_nil in Hx.
    - intros (p & d & Hp & _ & Hl & _). exfalso. apply Hnin, Hkeys, Hlive.
      rewrite Horder in Hp. exists p. split; [done|]. by rewrite <- Hlab'. }
  split; simpl; try done.
  - intros t. unfold row. simpl. rewrite Het. destruct (decide (t ∈ tagList)).
    + apply Hscan_nd. intros u. unfold tableRow. rewrite lookup_empty. constructor.
    + unfold getNeighbors. simpl. rewrite lookup_empty. constructor.
Qed.

Lemma parse_rejects (tags : Mat) :
  (∃ p, p ∈ pixelOrder tags ∧ label tags p = reservedTag) →
  ∃ tags' s, parse tags emptyImage = Some (false, tags', s).
Proof.
  intros Hex. unfold parse. simpl.
  destruct (parsePixels_rejects (pixelOrder tags) tags ∅) as (tags' & m & ->);
    [by intros t sp; rewrite lookup_empty|done|].
  simpl. by eexists _, _.
Qed.

Lemma parse_true_inv (tags tags' : Mat) (s : SuperpixelImage) :
  parse tags emptyImage = Some (true, tags', s) → parsedAs tags tags' s.
Proof.
  intros Hrun.
  destruct (decide (Exists (fun p => label tags p = reservedTag) (pixelOrder tags)))
    as [Hex|Hnex].
  - apply Exists_exists in Hex. destruct (parse_rejects tags Hex) as (? & ? & Hrej).
    congruence.
  - destruct (parse_accepts tags) as (tags'' & s'' & Hacc & Hpa).
    { intros p Hp Hl. apply Hnex, Exists_exists. by exists p. }
    congruence.
Qed.

Lemma reachable_wf (s : SuperpixelImage) : reachable s → wf s.
Proof.
  induction 1 as [tags tags' s Hparse|s s' e _ IH Hmerge].
  - by apply (parsedAs_wf tags tags'), parse_true_inv.
  - by apply (mergeEdge_wf s s' e).
Qed.

(** ** Coordinate count of a parsed store *)

Lemma count_partition (key : Z * Z → Z) (L : list (Z * Z)) (K : list Z) :
  NoDup K → (∀ p, p ∈ L → key p ∈ K) →
  sum_list (map (fun t => length (filter (fun p => key p = t) L)) K) = length L.
Proof.
  intros HK. induction L as [|a L IH]; intros Hkeys.
  { simpl. clear. induction K as [|k K IH]; [done|]. simpl. by rewrite IH. }
  rewrite (sum_list_map_bump
             (fun t => length (filter (fun p => key p = t) L))
             (fun t => length (filter (fun p => key p = t) (a :: L))) K (key a) 1).
  - rewrite IH; [simpl; lia|]. intros p Hp. apply Hkeys. by right.
  - done.
  - apply Hkeys. by left.
  - rewrite filter_cons. destruct (decide (key a = key a)); [simpl; lia|done].
  - intros t _ Hne. rewrite filter_cons. by destruct (decide (key a = t)); [congruence|].
Qed.

Lemma parsedAs_numCoords (tags tags' : Mat) (s : SuperpixelImage) (t : Z) :
  parsedAs tags tags' s →
  numCoords s t = length (filter (fun p => label tags p + 1 = t) (pixelOrder tags)).
Proof.
  intros H. unfold numCoords. rewrite (pa_regions _ _ _ H). unfold grown, coordsOf.
  rewrite lookup_empty. destruct (filter _ _); [done|]. simpl. by rewrite length_map.
Qed.

Lemma parsedAs_totalCoords (tags tags' : Mat) (s : SuperpixelImage) :
  parsedAs tags tags' s →
  totalCoords s = (Z.to_nat (rows tags) * Z.to_nat (cols tags))%nat.
Proof.
  intros H. unfold totalCoords. rewrite <- length_pixelOrder.
  rewrite <- (count_partition (fun p => label tags p + 1) (pixelOrder tags) (superpixels s)).
  - apply sum_list_map_ext. intros t _. by apply (parsedAs_numCoords tags tags').
  - apply StronglySorted_lt_NoDup, (pa_sorted _ _ _ H).
  - intros p Hp. apply (pa_tags _ _ _ H), (parsedAs_live tags tags' s); [done|]. by exists p.
Qed.

Lemma parsedAs_coord (tags tags' : Mat) (s : SuperpixelImage) (y x : Z) :
  parsedAs tags tags' s → (y, x) ∈ pixelOrder tags →
  ∃ sp, getSuperpixelPtr s (label tags' (y, x)) = Some sp ∧ mkCoord x y ∈ coords sp.
Proof.
  intros H Hp. unfold getSuperpixelPtr.
  rewrite (pa_regions _ _ _ H), (pa_labels _ _ _ H).
  destruct (decide ((y, x) ∈ pixelOrder tags)); [|done].
  unfold grown. rewrite lookup_empty.
  assert (Hin : mkCoord x y ∈ coordsOf tags (pixelOrder tags) (label tags (y, x) + 1)).
  { unfold coordsOf. apply list_elem_of_In, in_map_iff. exists (y, x). split; [done|].
    apply list_elem_of_In, list_elem_of_filter. done. }
  destruct (coordsOf _ _ _) as [|c cs]; [by apply elem_of_nil in Hin|].
  eexists. split; [reflexivity|done].
Qed.

Lemma parsed_reachable (tags : Mat) (s : SuperpixelImage) :
  parsed tags = Some s → reachable s.
Proof.
  unfold parsed. destruct (parse tags emptyImage) as [[[[|] tags'] s']|] eqn:Hp; [|done..].
  intros [= ->]. by apply (reach_parse tags tags').
Qed.

(** * Properties of the specification *)

(** C1.  A merge of two distinct live adjacent regions keeps the one with
    more coordinates, the first argument on a tie; afterwards the loser is
    absent, the survivor holds the coordinates of both, every former
    neighbor of the loser other than the survivor is a neighbor of the
    survivor and has the survivor as a neighbor, and no row holds a
    duplicate. *)
Theorem merge_postcondition (s : SuperpixelImage) (A B : Z) :
  reachable s → A ≠ B → live s A → live s B → B ∈ row s A →
  let e := mkEdge A B in
  ((numCoords s A < numCoords s B)%nat → survivor s e = B ∧ loser s e = A) ∧
  ((numCoords s B ≤ numCoords s A)%nat → survivor s e = A ∧ loser s e = B) ∧
  ∃ s', mergeEdge s e = Some s' ∧
        getSuperpixelPtr s' (loser s e) = None ∧
        (∃ sp, getSuperpixelPtr s' (survivor s e) = Some sp ∧
               length (coords sp) = (numCoords s A + numCoords s B)%nat) ∧
        (∀ n, n ∈ row s (loser s e) → n ≠ survivor s e →
              n ∈ row s' (survivor s e) ∧ survivor s e ∈ row s' n) ∧
        (∀ t, NoDup (row s' t)).
Proof.
  intros Hreach Hne HA HB Hadj e. pose proof (reachable_wf s Hreach) as Hwf.
  split; [|split].
  - intros Hlt. unfold survivor, loser. simpl.
    by destruct (Nat.leb_spec (numCoords s B) (numCoords s A)); [lia|].
  - intros Hle. unfold survivor, loser. simpl.
    by destruct (Nat.leb_spec (numCoords s B) (numCoords s A)); [|lia].
  - destruct (mergeEdge_merged s e Hwf) as (s' & Hrun & Hm); [done..|].
    exists s'. split; [done|]. split; [apply (merged_src _ _ _ _ Hm)|].
    assert (Hls : loser s e ≠ survivor s e ∧ live s (survivor s e) ∧
                  (numCoords s (survivor s e) + numCoords s (loser s e)
                   = numCoords s A + numCoords s B)%nat).
    { unfold loser, survivor. simpl. destruct (_ <=? _)%nat; repeat split; (done || lia). }
    destruct Hls as (Hls & Hlive & Hsum). split; [|split].
    + destruct (merged_dst _ _ _ _ Hm) as (sp & Hsp & _ & Hlen).
      exists sp. split; [done|lia].
    + intros n Hn Hnd.
      assert (Hc : contracted s (loser s e) (survivor s e) (survivor s e) n).
      { right; left. done. }
      split; [by apply (merged_rows _ _ _ _ Hm)|].
      apply contracted_sym in Hc as [Hnl Hc]; [|done..].
      by apply (merged_rows _ _ _ _ Hm).
    + apply (merged_nodup _ _ _ _ Hm).
Qed.

Lemma merge_postcondition_witness :
  ∃ s', mergeEdge stripesStore (mkEdge 1 2) = Some s' ∧
        getSuperpixelPtr s' 2 = None ∧
        (∃ sp, getSuperpixelPtr s' 1 = Some sp ∧ length (coords sp) = 13%nat) ∧
        (∀ n, n ∈ row stripesStore 2 → n ≠ 1 → n ∈ row s' 1 ∧ 1 ∈ row s' n) ∧
        (∀ t, NoDup (row s' t)).
Proof.
  refine (proj2 (proj2 (merge_postcondition stripesStore 1 2 _ _ _ _ _))).
  - apply (parsed_reachable stripes). vm_compute. reflexivity.
  - lia.
  - vm_compute. eexists. reflexivity.
  - vm_compute. eexists. reflexivity.
  - vm_compute. apply list_elem_of_here.
Defined.

(** C2.  After the initial parse and after every merge, adjacency between
    active regions is mutual and no region is its own neighbor. *)
Theorem adjacency_invariant (s : SuperpixelImage) :
  reachable s → adjacency_ok s.
Proof. intros H. by apply wf_adjacency_ok, reachable_wf. Qed.

Lemma adjacency_invariant_witness : adjacency_ok stripesMerged.
Proof.
  apply adjacency_invariant.
  apply (reach_merge stripesStore stripesMerged (mkEdge 1 2)).
  - apply (parsed_reachable stripes). vm_compute. reflexivity.
  - vm_compute. reflexivity.
Defined.

(** C3.  In every store reached from a parsed store by merges, one more
    merge leaves the total coordinate count of the active regions as it
    was. *)
Theorem total_coords_invariant (s s' : SuperpixelImage) (e : SuperpixelEdge) :
  reachable s → mergeEdge s e = Some s' → totalCoords s' = totalCoords s.
Proof.
  intros Hreach Hrun. pose proof (reachable_wf s Hreach) as Hwf.
  destruct (mergeEdge_Some_inv s s' e Hwf Hrun) as (Hne & HA & HB & Hadj).
  destruct (mergeEdge_merged s e) as (s'' & Hrun' & Hm); [done..|].
  assert (s'' = s') as -> by congruence.
  apply (merged_totalCoords s s' (loser s e) (survivor s e)); [done| | |done];
    unfold loser, survivor; destruct (_ <=? _)%nat; done.
Qed.

Lemma total_coords_invariant_witness :
  totalCoords stripesMerged = totalCoords stripesStore.
Proof.
  apply (total_coords_invariant stripesStore stripesMerged (mkEdge 1 2)).
  - apply (parsed_reachable stripes). vm_compute. reflexivity.
  - vm_compute. reflexivity.
Defined.

(** C6.  A label image with a pixel of the reserved label 0x00FFFFFF is
    refused before any tag list or adjacency row is built; every other
    image is accepted, and then the store has one region for each label
    plus one that occurs, holding exactly the coordinates of that label in
    scan order, the coordinate counts add up to the pixel count, and the
    list of active ids is in ascending order. *)
Theorem parse_regions (tags : Mat) :
  ((∃ p, p ∈ pixelOrder tags ∧ label tags p = reservedTag) →
     ∃ tags' s, parse tags emptyImage = Some (false, tags', s) ∧
                superpixels s = [] ∧ ∀ t, row s t = []) ∧
  ((∀ p, p ∈ pixelOrder tags → label tags p ≠ reservedTag) →
     ∃ tags' s, parse tags emptyImage = Some (true, tags', s) ∧
       (∀ t, live s t ↔ ∃ p, p ∈ pixelOrder tags ∧ t = label tags p + 1) ∧
       (∀ t sp, getSuperpixelPtr s t = Some sp →
                tag sp = t ∧ coords sp = coordsOf tags (pixelOrder tags) t) ∧
       totalCoords s = (Z.to_nat (rows tags) * Z.to_nat (cols tags))%nat ∧
       StronglySorted Z.lt (superpixels s) ∧
       (∀ t, t ∈ superpixels s ↔ live s t)).
Proof.
  split.
  - intros Hex. unfold parse. simpl.
    destruct (parsePixels_rejects (pixelOrder tags) tags ∅) as (tags' & m & ->);
      [by intros t sp; rewrite lookup_empty|done|].
    simpl. eexists _, _. split; [reflexivity|]. split; [done|].
    intros t. unfold row, getNeighbors. simpl. by rewrite lookup_empty.
  - intros Hfree. destruct (parse_accepts tags Hfree) as (tags' & s & Hrun & Hpa).
    exists tags', s. split; [done|]. split; [|split; [|split; [|split]]].
    + intros t. rewrite (parsedAs_live tags tags' s t Hpa).
      split; intros (p & ? & ?); exists p; split; (done || lia).
    + intros t sp. unfold getSuperpixelPtr. rewrite (pa_regions _ _ _ Hpa).
      unfold grown. rewrite lookup_empty.
      destruct (coordsOf tags (pixelOrder tags) t); [done|]. by intros [= <-].
    + by apply (parsedAs_totalCoords tags tags').
    + apply (pa_sorted _ _ _ Hpa).
    + apply (pa_tags _ _ _ Hpa).
Qed.

Lemma parse_regions_witness :
  (∃ tags' s, parse whitePixelImage emptyImage = Some (false, tags', s) ∧
              superpixels s = [] ∧ ∀ t, row s t = []) ∧
  (∃ tags' s, parse stripes emptyImage = Some (true, tags', s) ∧
     (∀ t, live s t ↔ ∃ p, p ∈ pixelOrder stripes ∧ t = label stripes p + 1) ∧
     (∀ t sp, getSuperpixelPtr s t = Some sp →
              tag sp = t ∧ coords sp = coordsOf stripes (pixelOrder stripes) t) ∧
     totalCoords s = 18%nat ∧
     StronglySorted Z.lt (superpixels s) ∧
     (∀ t, t ∈ superpixels s ↔ live s t)).
Proof.
  split.
  - apply (proj1 (parse_regions whitePixelImage)).
    exists (0, 1). split; [|vm_compute; reflexivity].
    apply elem_of_pixelOrder. simpl. lia.
  - apply (proj2 (parse_regions stripes)).
    intros [y x] Hp. apply elem_of_pixelOrder in Hp. simpl in Hp.
    assert (y = 0) as -> by lia.
    assert (Hx : x ∈ seqZ 0 18) by (apply elem_of_seqZ; lia).
    revert Hx. generalize x. apply Forall_forall. vm_compute.
    repeat constructor; discriminate.
Defined.

(** C9.  A successful parse has written into the label image of the
    caller: every pixel holds its former label plus one, and the
    coordinate of the pixel lies in the region named by the new label. *)
Theorem parse_overwrites_labels (tags tags' : Mat) (s : SuperpixelImage) (y x : Z) :
  parse tags emptyImage = Some (true, tags', s) → (y, x) ∈ pixelOrder tags →
  label tags' (y, x) = label tags (y, x) + 1 ∧
  ∃ sp, getSuperpixelPtr s (label tags' (y, x)) = Some sp ∧
        tag sp = label tags' (y, x) ∧ mkCoord x y ∈ coords sp.
Proof.
  intros Hrun Hp. pose proof (parse_true_inv tags tags' s Hrun) as Hpa.
  split.
  - rewrite (pa_labels _ _ _ Hpa). by destruct (decide ((y, x) ∈ pixelOrder tags)).
  - destruct (parsedAs_coord tags tags' s y x Hpa Hp) as (sp & Hsp & Hc).
    exists sp. split; [done|]. split; [|done].
    by apply (wf_tag s (parsedAs_wf _ _ _ Hpa)).
Qed.

Lemma parse_overwrites_labels_witness :
  label stripesBumped (0, 11) = label stripes (0, 11) + 1 ∧
  ∃ sp, getSuperpixelPtr stripesStore (label stripesBumped (0, 11)) = Some sp ∧
        tag sp = label stripesBumped (0, 11) ∧ mkCoord 11 0 ∈ coords sp.
Proof.
  apply (parse_overwrites_labels stripes stripesBumped stripesStore 0 11).
  - vm_compute. reflexivity.
  - apply elem_of_pixelOrder. simpl. lia.
Defined.

Example withinBound_flat :
  withinBound (map F32.of_Z [1; 2; 3; 4]) (F32.of_Z 100)
  = Some (true, map F32.of_Z [2; 3; 4]).
Proof. vm_compute. reflexivity. Qed.

Example withinBound_jump :
  fst <$> withinBound (map F32.of_Z [1; 2; 4; 7]) (F32.of_Z 100) = Some false.
Proof. vm_compute. reflexivity. Qed.

Example withinBound_last_is_maximum :
  withinBound (map F32.of_Z [1; 2; 4; 7; 0]) (F32.of_Z 8)
  = Some (true, map F32.of_Z [2; 4; 7]).
Proof. vm_compute. reflexivity. Qed.

Example withinBound_assert_fails :
  withinBound (map F32.of_Z [10; 1; 2; 3; 4]) (F32.of_Z 5) = None.
Proof. vm_compute. reflexivity. Qed.

Lemma bind_Some {A B} (x : A) (f : A → option B) : Some x ≫= f = f x.
Proof. reflexivity. Qed.

(** ** Comparisons of floats *)

Lemma SFcompare_antisym (a b : float) :
  SFcompare b a = option_map CompOpp (SFcompare a b).
Proof.
  destruct a as [[|]|[|]| |[|] ma ea], b as [[|]|[|]| |[|] mb eb]; simpl; try done.
  - rewrite (Z.compare_antisym ea eb). destruct (ea ?= eb); simpl; try done.
    rewrite Pos.compare_cont_antisym. by rewrite CompOpp_involutive.
  - rewrite (Z.compare_antisym ea eb). destruct (ea ?= eb); simpl; try done.
    by rewrite Pos.compare_cont_antisym.
Qed.

(** Away from NaN, "not [a <= b]" is [a > b]. *)
Lemma gtb_not_leb (a b : float) :
  F32.is_nan a = false → F32.is_nan b = false → F32.gtb a b = negb (F32.leb a b).
Proof.
  intros Ha Hb. unfold F32.gtb, F32.leb, SFltb, SFleb.
  rewrite (SFcompare_antisym a b).
  destruct a as [[|]|[|]| |[|] ma ea], b as [[|]|[|]| |[|] mb eb]; try done;
    simpl; try done.
  - destruct (ea ?= eb); simpl; try done. by destruct (Pos.compare_cont Eq ma mb).
  - destruct (ea ?= eb); simpl; try done. by destruct (Pos.compare_cont Eq ma mb).
Qed.

Lemma gtb_zero_not_eqb (d : float) : F32.gtb d F32.zero = true → F32.eqb d F32.zero = false.
Proof.
  unfold F32.gtb, F32.eqb, SFltb, SFeqb. rewrite (SFcompare_antisym d F32.zero).
  by destruct (SFcompare d F32.zero) as [[| |]|].
Qed.

Lemma float_diffs_from_successive (w : float) (rest : list float) :
  float_diffs_from w rest = successiveDeltas (w :: rest).
Proof.
  revert w. induction rest as [|w1 rest IH]; intros w; [done|].
  simpl. by rewrite IH.
Qed.

Lemma eraseFirst_float_diffs (weights : list float) :
  weights ≠ [] → eraseFirst (float_diffs weights) = Some (successiveDeltas weights).
Proof.
  destruct weights as [|w rest]; [done|]. intros _.
  unfold float_diffs. simpl. by rewrite float_diffs_from_successive.
Qed.

Lemma length_successiveDeltas (weights : list float) :
  length (successiveDeltas weights) = pred (length weights).
Proof.
  induction weights as [|w0 [|w1 rest] IH]; [done..|].
  change (S (length (successiveDeltas (w1 :: rest))) = S (length rest)).
  by rewrite IH.
Qed.

Lemma collectDeltas_closed (deltaWeights : list float) :
  collectDeltas deltaWeights =
  (length (filter isPositive deltaWeights), map absDelta (filter isNonzero deltaWeights)).
Proof.
  unfold collectDeltas.
  enough (Hgen : ∀ n acc,
    foldl (fun '(numNonNegDeltas, useDeltas) deltaWeight =>
             if negb (F32.eqb deltaWeight F32.zero)
             then if F32.gtb deltaWeight F32.zero
                  then (S numNonNegDeltas, useDeltas ++ [deltaWeight])
                  else (numNonNegDeltas, useDeltas ++ [F32.mul deltaWeight minusOne])
             else (numNonNegDeltas, useDeltas)) (n, acc) deltaWeights =
    ((n + length (filter isPositive deltaWeights))%nat,
     acc ++ map absDelta (filter isNonzero deltaWeights))) by apply Hgen.
  induction deltaWeights as [|d ds IH]; intros n acc; simpl.
  { by rewrite Nat.add_0_r, app_nil_r. }
  rewrite !filter_cons.
  destruct (decide (isPositive d)) as [Hp|Hp], (decide (isNonzero d)) as [Hz|Hz];
    unfold isPositive, isNonzero in Hp, Hz.
  - rewrite Hp, Hz. simpl. rewrite IH. unfold absDelta at 2.
    rewrite Hp, <- app_assoc. f_equal. lia.
  - by rewrite (gtb_zero_not_eqb d Hp) in Hz.
  - apply not_true_is_false in Hp. rewrite Hp, Hz. simpl. rewrite IH.
    unfold absDelta at 2. by rewrite Hp, <- app_assoc.
  - apply not_true_is_false in Hp. apply not_false_is_true in Hz.
    rewrite Hz. simpl. by rewrite IH.
Qed.

Lemma collectIncreasing_closed (weights : list float) :
  collectIncreasing weights = runningMaxima weights.
Proof.
  destruct weights as [|first rest]; [done|]. simpl.
  enough (Hgen : ∀ prev acc,
    snd (foldl (fun '(prev, increasingWeights) weight =>
                  if F32.gtb weight prev
                  then (weight, increasingWeights ++ [weight])
                  else (prev, increasingWeights)) (prev, acc) rest) =
    acc ++ increasingFrom prev rest) by apply Hgen.
  induction rest as [|w rest IH]; intros prev acc; simpl.
  { by rewrite app_nil_r. }
  destruct (F32.gtb w prev); rewrite IH; [|done]. by rewrite <- app_assoc.
Qed.

Section BoundCheckerProperties.

Variable sample_mean : list float → float.
Variable sample_mean_delta_squared_div : list float → float → float.

(** C4, as it holds for the code.  For a history of three or more
    weights the check
    works on the weights above the running maximum when at least three
    deltas are positive, and on the whole history otherwise; the deltas
    are those of the kept weights, respectively the absolute nonzero
    deltas of the history.  It rejects exactly when stddev > 0.01 and the
    step from the last kept weight to the candidate is positive and
    exceeds mean + 2 stddev; away from NaN this is: it accepts iff the
    step is at most mean + 2 stddev, or stddev is at most 0.01, or the
    step is at most zero.  The kept weights replace the history of the
    caller. *)
Theorem growth_bound_rule (weights : list float) (currentWeight : float) :
  (3 ≤ length weights)%nat →
  let deltas := successiveDeltas weights in
  let rising := (3 <=? length (filter isPositive deltas))%nat in
  let kept := if rising then runningMaxima weights else weights in
  let used := if rising then successiveDeltas (runningMaxima weights)
              else map absDelta (filter isNonzero deltas) in
  let mean := sample_mean used in
  let stddev := sample_mean_delta_squared_div used mean in
  let upperLimit := F32.add mean (F32.mul stddev F32.two) in
  kept ≠ [] →
  ∃ lastWeight accepted,
    last kept = Some lastWeight ∧
    pos_sample_within_bound sample_mean sample_mean_delta_squared_div
      weights currentWeight = Some (accepted, kept) ∧
    let step := F32.sub currentWeight lastWeight in
    (accepted = false ↔
       F32.gtb stddev F32.min_stddev_bound = true ∧
       F32.gtb step F32.zero = true ∧ F32.gtb step upperLimit = true) ∧
    (F32.is_nan stddev = false → F32.is_nan step = false →
     F32.is_nan upperLimit = false →
       (accepted = true ↔
          F32.leb step upperLimit = true ∨
          F32.leb stddev F32.min_stddev_bound = true ∨
          F32.leb step F32.zero = true)).
Proof.
  intros Hlen.
  destruct weights as [|w0 [|w1 [|w2 rest]]]; simpl in Hlen; try lia.
  set (weights := w0 :: w1 :: w2 :: rest).
  assert (Hne : weights ≠ []) by done.
  assert (Hlen3 : (3 ≤ length weights)%nat) by (simpl; lia).
  assert (Hone : match weights with [w] => F32.gtb w F32.half | _ => false end = false)
    by done.
  assert (Htwo : (length weights <=? 2)%nat = false) by done.
  clearbody weights. clear Hlen w0 w1 w2 rest.
  intros deltas rising kept used mean stddev upperLimit Hkept.
  destruct (last kept) as [lastWeight|] eqn:Hlast;
    [|by apply last_None in Hlast].
  exists lastWeight,
    (continueExpanding sample_mean sample_mean_delta_squared_div used lastWeight currentWeight).
  split; [done|]. split.
  - unfold pos_sample_within_bound. rewrite Hone, Htwo.
    rewrite (eraseFirst_float_diffs weights) by done. fold deltas.
    assert (Hd : (2 <=? length deltas)%nat = true).
    { apply Nat.leb_le. unfold deltas. rewrite length_successiveDeltas. lia. }
    rewrite bind_Some, Hd. change (assert true) with (Some tt).
    rewrite bind_Some, collectDeltas_closed. cbv beta iota. fold rising.
    unfold kept, used in *. destruct rising.
    + rewrite collectIncreasing_closed.
      assert (Hpos : (0 <? length (runningMaxima weights))%nat = true).
      { apply Nat.ltb_lt. destruct (runningMaxima weights); [done|simpl; lia]. }
      rewrite Hpos. change (assert true) with (Some tt).
      rewrite bind_Some, eraseFirst_float_diffs, !bind_Some by done.
      by rewrite Hlast, bind_Some.
    + by rewrite bind_Some, Hlast, bind_Some.
  - unfold continueExpanding. fold mean stddev upperLimit.
    set (step := F32.sub currentWeight lastWeight). simpl. split.
    + rewrite negb_false_iff, !andb_true_iff. tauto.
    + intros Hn1 Hn2 Hn3.
      rewrite (gtb_not_leb stddev F32.min_stddev_bound), (gtb_not_leb step F32.zero),
        (gtb_not_leb step upperLimit) by done.
      destruct (F32.leb stddev _), (F32.leb step F32.zero), (F32.leb step upperLimit);
        simpl; intuition congruence.
Qed.

(** C5, as it holds for the code.  A history of at most two weights is
    accepted, unless it is a single weight above 0.5, which is rejected. *)
Theorem short_history_rule (weights : list float) (currentWeight : float) :
  (length weights ≤ 2)%nat →
  ((∃ w, weights = [w] ∧ F32.gtb w F32.half = true) →
     pos_sample_within_bound sample_mean sample_mean_delta_squared_div
       weights currentWeight = Some (false, weights)) ∧
  ((∀ w, weights = [w] → F32.gtb w F32.half = false) →
     pos_sample_within_bound sample_mean sample_mean_delta_squared_div
       weights currentWeight = Some (true, weights)).
Proof.
  intros Hlen. unfold pos_sample_within_bound. split.
  - intros (w & -> & Hw). by rewrite Hw.
  - intros Hnot. destruct weights as [|w0 [|w1 [|w2 rest]]]; simpl in Hlen; try lia; try done.
    by rewrite (Hnot w0).
Qed.

End BoundCheckerProperties.

Lemma growth_bound_rule_witness :
  ∃ lastWeight accepted,
    last (runningMaxima risingHistory) = Some lastWeight ∧
    withinBound risingHistory (F32.of_Z 8) = Some (accepted, runningMaxima risingHistory).
Proof.
  destruct (growth_bound_rule sampleMean sampleStddev risingHistory (F32.of_Z 8))
    as (lastWeight & accepted & Hlast & Hrun & _).
  - simpl. lia.
  - vm_compute. discriminate.
  - exists lastWeight, accepted. split; [exact Hlast|exact Hrun].
Defined.

(** C4 as written measures the step from the last weight of the history:
    here the history ends below its maximum, the step from its last
    weight exceeds mean + 2 stddev with stddev above 0.01, and the
    candidate is accepted all the same. *)
Lemma growth_bound_last_weight_counterexample :
  (3 ≤ length risingHistory)%nat ∧
  last risingHistory = Some (F32.of_Z 0) ∧
  fst <$> withinBound risingHistory (F32.of_Z 8) = Some true ∧
  let used := successiveDeltas (runningMaxima risingHistory) in
  let mean := sampleMean used in
  let stddev := sampleStddev used mean in
  F32.leb (F32.sub (F32.of_Z 8) (F32.of_Z 0)) (F32.add mean (F32.mul stddev F32.two)) = false ∧
  F32.leb stddev F32.min_stddev_bound = false.
Proof. vm_compute. repeat split; (reflexivity || lia). Qed.

Lemma short_history_rule_witness :
  withinBound [threeQuarters] F32.zero = Some (false, [threeQuarters]).
Proof.
  apply (proj1 (short_history_rule sampleMean sampleStddev [threeQuarters] F32.zero
                  ltac:(simpl; lia))).
  exists threeQuarters. split; [reflexivity|vm_compute; reflexivity].
Defined.

(** C5 as written promises acceptance for every history of at most two
    weights: a single weight of 0.75 is such a history and is rejected. *)
Lemma short_history_counterexample :
  (length [threeQuarters] ≤ 2)%nat ∧
  fst <$> withinBound [threeQuarters] F32.zero = Some false.
Proof. split; [simpl; lia|vm_compute; reflexivity]. Qed.

Lemma collectSizes_closed (s : SuperpixelImage) (tagList : list Z)
    (sizes : list float) (forSizes : list Z) :
  (∀ t, t ∈ tagList → live s t) →
  collectSizes s tagList sizes forSizes =
  Some (sizes ++ map (sizeOf s)
                     (filter (fun t => MaxSmallNumPixelsVal ≤ Z.of_nat (numCoords s t)) tagList),
        forSizes ++ filter (fun t => MaxSmallNumPixelsVal ≤ Z.of_nat (numCoords s t)) tagList).
Proof.
  revert sizes forSizes. induction tagList as [|t rest IH]; intros sizes forSizes Hlive.
  { simpl. by rewrite !app_nil_r. }
  simpl. destruct (Hlive t) as [sp Hsp]; [by left|].
  unfold getSuperpixelPtr. rewrite Hsp, bind_Some, filter_cons.
  assert (Hn : numCoords s t = length (coords sp)) by (unfold numCoords; by rewrite Hsp).
  rewrite <- Hn.
  destruct (Z.ltb_spec (Z.of_nat (numCoords s t)) MaxSmallNumPixelsVal) as [Hlt|Hge].
  - destruct (decide (MaxSmallNumPixelsVal ≤ Z.of_nat (numCoords s t))); [lia|].
    apply IH. intros u Hu. apply Hlive. by right.
  - destruct (decide (MaxSmallNumPixelsVal ≤ Z.of_nat (numCoords s t))); [|lia].
    rewrite IH by (intros u Hu; apply Hlive; by right).
    simpl. by rewrite <- !app_assoc.
Qed.

Lemma selectAbove_closed (upperLimit : float) (f : Z → float) (tagList pre results : list Z) :
  selectAbove upperLimit (map f tagList) (pre ++ tagList) (length pre) results =
  Some (results ++ filter (fun t => F32.leb (f t) upperLimit = false) tagList).
Proof.
  revert pre results. induction tagList as [|t rest IH]; intros pre results; simpl.
  { by rewrite app_nil_r. }
  rewrite filter_cons.
  assert (Hnext : pre ++ t :: rest = (pre ++ [t]) ++ rest) by (by rewrite <- app_assoc).
  assert (Hlen : S (length pre) = length (pre ++ [t])) by (rewrite length_app; simpl; lia).
  destruct (F32.leb (f t) upperLimit) eqn:Hle.
  - destruct (decide (true = false)); [done|]. rewrite Hnext, Hlen. apply IH.
  - destruct (decide (false = false)); [|done].
    rewrite list_lookup_middle by done. rewrite bind_Some, Hnext, Hlen, IH.
    by rewrite <- app_assoc.
Qed.

Section OutlierScanProperties.

Variable sample_mean : list float → float.
Variable sample_mean_delta_squared_div : list float → float → float.

(** C7.  The scan takes mean and standard deviation over the sizes of the
    regions of at least ten coordinates.  With a standard deviation
    below 100 it returns nothing; otherwise it returns, in list order,
    exactly the counted regions whose size is not within
    mean + stddev * 0.5 * 3, which away from NaN are those whose size
    exceeds that limit. *)
Theorem largest_region_scan (s : SuperpixelImage) :
  (∀ t, t ∈ superpixels s → live s t) →
  let sizes := map (sizeOf s) (counted s) in
  let mean := sample_mean sizes in
  let stddev := sample_mean_delta_squared_div sizes mean in
  let upperLimit := F32.add mean (F32.mul (F32.mul stddev F32.half) F32.three) in
  ∃ results,
    scanLargestSuperpixels sample_mean sample_mean_delta_squared_div s = Some results ∧
    (F32.ltb stddev F32.hundred = true → results = []) ∧
    (F32.ltb stddev F32.hundred = false →
       results = filter (fun t => F32.leb (sizeOf s t) upperLimit = false) (counted s) ∧
       ∀ t, F32.is_nan (sizeOf s t) = false → F32.is_nan upperLimit = false →
            (t ∈ results ↔ t ∈ counted s ∧ F32.gtb (sizeOf s t) upperLimit = true)).
Proof.
  intros Hlive sizes mean stddev upperLimit. unfold scanLargestSuperpixels.
  rewrite collectSizes_closed by done. rewrite bind_Some. cbv beta iota.
  rewrite !app_nil_l. fold (counted s). fold sizes mean stddev upperLimit.
  destruct (F32.ltb stddev F32.hundred) eqn:Hsd.
  - exists []. split; [done|]. split; [done|]. intros Hf. discriminate.
  - pose proof (selectAbove_closed upperLimit (sizeOf s) (counted s) [] []) as Hsel.
    simpl in Hsel. exists (filter (fun t => F32.leb (sizeOf s t) upperLimit = false) (counted s)).
    split; [done|]. split; [intros Hf; discriminate|]. intros _. split; [done|].
    intros t Hn1 Hn2. rewrite list_elem_of_filter, (gtb_not_leb _ _ Hn1 Hn2).
    destruct (F32.leb (sizeOf s t) upperLimit); simpl; intuition congruence.
Qed.

End OutlierScanProperties.

Example scan_blobs :
  scanLargestSuperpixels sampleMean sampleStddev blobsStore = Some [1].
Proof. vm_compute. reflexivity. Qed.

Lemma blobsStore_reachable : reachable blobsStore.
Proof. apply (parsed_reachable blobs). vm_compute. reflexivity. Qed.

Lemma blobsStore_live : ∀ t, t ∈ superpixels blobsStore → live blobsStore t.
Proof. apply (wf_live blobsStore). apply reachable_wf, blobsStore_reachable. Qed.

Lemma largest_region_scan_witness :
  ∃ results,
    scanLargestSuperpixels sampleMean sampleStddev blobsStore = Some results ∧
    results = [1].
Proof.
  destruct (largest_region_scan sampleMean sampleStddev blobsStore blobsStore_live)
    as (results & Hrun & _).
  exists results. split; [exact Hrun|].
  assert (E : scanLargestSuperpixels sampleMean sampleStddev blobsStore = Some [1])
    by (vm_compute; reflexivity).
  rewrite E in Hrun. by injection Hrun as <-.
Defined.

Example filter_stripes :
  filterOutVeryLargeNeighbors sampleMean sampleStddev mergeSort stripesStore 2 = Some [].
Proof. vm_compute. reflexivity. Qed.

Example pick_stripes :
  pickSmallNeighbor sampleMean sampleStddev tagDistance mergeSort stripesStore 2 = Some 3.
Proof. vm_compute. reflexivity. Qed.

Example filter_sliver :
  filterOutVeryLargeNeighbors sampleMean sampleStddev mergeSort sliverStore 1 = Some [2].
Proof. vm_compute. reflexivity. Qed.

Example pick_sliver :
  pickSmallNeighbor sampleMean sampleStddev tagDistance mergeSort sliverStore 1 = Some 3.
Proof. vm_compute. reflexivity. Qed.

Example filter_lonely :
  filterOutVeryLargeNeighbors sampleMean sampleStddev mergeSort lonelyStore 5 = None.
Proof. vm_compute. reflexivity. Qed.

(** The float 0.5 promoted to double is the double 0.5, and the float
    nearest to a tenth is not the double nearest to a tenth. *)
Example promoted_half :
  SFeqb (F64.of_float (doubleToFloat oneHalf)) oneHalf = true ∧
  let tenth := SFdiv F64.prec F64.emax (F64.of_Z 1) (F64.of_Z 10) in
  SFeqb (F64.of_float (doubleToFloat tenth)) tenth = false.
Proof. vm_compute. done. Qed.

(** A tie of three at the score 0.5: the scan of the ties goes on to the
    last of them. *)
Example pick_three_way_tie :
  compareNeighborSuperpixels evenScore mergeSort quadStore 1 None
    = Some [(oneHalf, 1, 4); (oneHalf, 1, 2); (oneHalf, 1, 3)] ∧
  pickSmallNeighbor sampleMean sampleStddev evenScore mergeSort quadStore 1 = Some 3.
Proof. vm_compute. done. Qed.

(** The visit of the first pixel of the square merges it with the last
    of the tie and stays on it, as the region is still small; the visit
    of a region without a neighbor has no result. *)
Example step_quad :
  option_map (fun p : SuperpixelImage * bool => (superpixels p.1, numCoords p.1 1, p.2))
    (smallSuperpixelStep sampleMean sampleStddev evenScore mergeSort quadStore 1)
  = Some ([1; 2; 4], 2%nat, false).
Proof. vm_compute. reflexivity. Qed.

Example step_lonely :
  smallSuperpixelStep sampleMean sampleStddev tagDistance mergeSort lonelyStore 5 = None.
Proof. vm_compute. reflexivity. Qed.

Lemma elem_of_getNeighborsSet (et : SuperpixelEdgeTable) (t n : Z) :
  n ∈ getNeighborsSet et t ↔ n ∈ getNeighbors et t.
Proof.
  unfold getNeighborsSet. rewrite merge_sort_Permutation. apply elem_of_remove_dups.
Qed.

Lemma NoDup_getNeighborsSet (et : SuperpixelEdgeTable) (t : Z) :
  NoDup (getNeighborsSet et t).
Proof.
  unfold getNeighborsSet. rewrite merge_sort_Permutation. apply NoDup_remove_dups.
Qed.

Lemma sizeTuples_tags (s : SuperpixelImage) (l : list Z) (tuples : list CompareNeighborTuple) :
  sizeTuples s l = Some tuples → map tupleTag tuples = l.
Proof.
  revert tuples. induction l as [|n l IH]; intros tuples; simpl.
  { by intros [= <-]. }
  destruct (getSuperpixelPtr s n); [|done]. rewrite bind_Some.
  destruct (sizeTuples s l) as [rest|]; [|done]. rewrite bind_Some.
  intros [= <-]. simpl. by rewrite (IH rest).
Qed.

Lemma sizeTuples_defined (s : SuperpixelImage) (l : list Z) :
  (∀ n, n ∈ l → live s n) → is_Some (sizeTuples s l).
Proof.
  induction l as [|n l IH]; intros Hlive; simpl; [by eexists|].
  destruct (Hlive n) as [sp Hsp]; [by left|].
  unfold getSuperpixelPtr. rewrite Hsp, bind_Some.
  destruct IH as [rest ->]; [intros m Hm; apply Hlive; by right|]. by eexists.
Qed.

(** ** The comparisons are strict weak orderings *)

Lemma largerSize_strictWeakOrder (l : list CompareNeighborTuple) :
  strictWeakOrder largerSize l.
Proof.
  unfold strictWeakOrder, largerSize. split; [|split].
  - intros x _. apply Z.ltb_irrefl.
  - intros x y z _ _ _. rewrite !Z.ltb_lt. lia.
  - intros x y z _ _ _. rewrite !Z.ltb_ge. lia.
Qed.

Lemma SFltb_key (a b : spec_float) :
  F64.is_nan a = false → F64.is_nan b = false →
  SFltb a b = true ↔ keyLt (floatKey a) (floatKey b).
Proof.
  unfold SFltb, SFcompare, keyLt.
  destruct a as [sa|sa| |sa ma ea], b as [sb|sb| |sb mb eb]; try done;
    try destruct sa; try destruct sb; simpl; intros _ _.
  all: try (split; [done|lia]).
  all: try (split; [lia|done]).
  all: float_cases ea eb ma mb.
Qed.

Lemma SFeqb_key (a b : spec_float) :
  F64.is_nan a = false → F64.is_nan b = false →
  SFeqb a b = true ↔ floatKey a = floatKey b.
Proof.
  unfold SFeqb, SFcompare.
  destruct a as [sa|sa| |sa ma ea], b as [sb|sb| |sb mb eb]; try done;
    try destruct sa; try destruct sb; simpl; intros _ _.
  all: try (split; [done|congruence]).
  all: try (split; done).
  all: float_cases ea eb ma mb.
Qed.

Lemma lessAlike_lt (a b : CompareNeighborTuple) :
  F64.is_nan a.1.1 = false → F64.is_nan b.1.1 = false →
  lessAlike a b = true ↔ alikeLt a b.
Proof.
  intros Ha Hb. unfold lessAlike, alikeLt.
  pose proof (SFltb_key _ _ Ha Hb) as Hlt. pose proof (SFeqb_key _ _ Ha Hb) as Heq.
  unfold keyLt in Hlt.
  destruct (floatKey a.1.1) as [[a1 a2] a3], (floatKey b.1.1) as [[b1 b2] b3]. simpl in *.
  destruct (SFeqb a.1.1 b.1.1).
  - assert (a1 = b1 ∧ a2 = b2 ∧ a3 = b3) as (-> & -> & ->).
    { destruct Heq as [Heq _]. specialize (Heq eq_refl). by injection Heq. }
    rewrite Z.ltb_lt. lia.
  - rewrite Hlt. split; [lia|].
    intros H. assert ((a1, a2, a3) ≠ (b1, b2, b3)) as Hne.
    { intros E. apply Heq in E. done. }
    destruct (decide (a1 = b1)) as [->|]; [|lia].
    destruct (decide (a2 = b2)) as [->|]; [|lia].
    destruct (decide (a3 = b3)) as [->|]; [done|lia].
Qed.

Lemma lessAlike_strictWeakOrder (l : list CompareNeighborTuple) :
  (∀ r, r ∈ l → F64.is_nan r.1.1 = false) → strictWeakOrder lessAlike l.
Proof.
  intros Hnan.
  assert (Hneg : ∀ a b, a ∈ l → b ∈ l → lessAlike a b = false ↔ ¬ alikeLt a b).
  { intros a b Ha Hb. rewrite <- lessAlike_lt by auto. by destruct (lessAlike a b). }
  split; [|split].
  - intros x Hx. apply Hneg; [done..|]. unfold alikeLt. simpl. lia.
  - intros x y z Hx Hy Hz. rewrite !lessAlike_lt by auto. unfold alikeLt. simpl. lia.
  - intros x y z Hx Hy Hz. rewrite !Hneg by done. unfold alikeLt. simpl. lia.
Qed.

Lemma mergeSort_rearranges : rearranges mergeSort.
Proof. intros less l _. apply merge_sort_Permutation. Qed.

Section TinyRegionLemmas.

Variable sample_mean : list float → float.
Variable sample_mean_delta_squared_div : list float → float → float.
Variable compareHist : SuperpixelImage → Z → Z → spec_float.
Variable stdSort : (CompareNeighborTuple → CompareNeighborTuple → bool) →
                   list CompareNeighborTuple → list CompareNeighborTuple.

Hypothesis stdSort_rearranges : rearranges stdSort.

Lemma sortTuples_Permutation (less : CompareNeighborTuple → CompareNeighborTuple → bool)
    (tuples : list CompareNeighborTuple) :
  strictWeakOrder less tuples → sortTuples stdSort less tuples ≡ₚ tuples.
Proof.
  intros Hswo. unfold sortTuples. destruct (1 <? length tuples)%nat; [|done].
  by apply stdSort_rearranges.
Qed.

Lemma stddevLoop_defined (tuples : list CompareNeighborTuple) (acc : list Z) :
  tuples ≠ [] →
  is_Some (stddevLoop sample_mean sample_mean_delta_squared_div tuples acc).
Proof.
  revert acc. induction tuples as [|t rest IH]; intros acc Hne; [done|].
  destruct rest as [|t2 rest]; [by eexists|].
  cbn [stddevLoop]. cbn [map head]. rewrite bind_Some.
  match goal with |- is_Some (if ?c then _ else _) => destruct c end; [|by eexists].
  by apply IH.
Qed.

Lemma stddevLoop_keeps (tuples : list CompareNeighborTuple) (acc large : list Z) :
  stddevLoop sample_mean sample_mean_delta_squared_div tuples acc = Some large →
  NoDup (map tupleTag tuples) →
  (∀ x, x ∈ acc → x ∉ map tupleTag tuples) →
  ∃ t, t ∈ tuples ∧ tupleTag t ∉ large.
Proof.
  revert acc. induction tuples as [|t rest IH]; intros acc Hrun Hnd Hdisj; [done|].
  destruct rest as [|t2 rest].
  { injection Hrun as <-. exists t. split; [by left|].
    intros Hin. apply (Hdisj _ Hin). by left. }
  cbn [stddevLoop] in Hrun. cbn [map head] in Hrun. rewrite bind_Some in Hrun.
  match type of Hrun with (if ?c then _ else _) = _ => destruct c end.
  - apply NoDup_cons in Hnd as [Ht Hnd].
    destruct (IH (acc ++ [t.1.2]) Hrun Hnd) as (k & Hk & Hkl).
    { intros x Hx Hin. apply elem_of_app in Hx as [Hx|Hx].
      - apply (Hdisj x Hx). by right.
      - apply list_elem_of_singleton in Hx as ->. by apply Ht. }
    exists k. split; [by right|done].
  - injection Hrun as <-. exists t. split; [by left|].
    intros Hin. apply (Hdisj _ Hin). by left.
Qed.

(** Whenever the filter returns, one neighbor is not in its result. *)
Lemma filter_keeps_neighbor (s : SuperpixelImage) (t : Z) (large : list Z) :
  filterOutVeryLargeNeighbors sample_mean sample_mean_delta_squared_div stdSort s t
    = Some large →
  ∃ n, n ∈ row s t ∧ n ∉ large.
Proof.
  unfold filterOutVeryLargeNeighbors.
  destruct (sizeTuples s (getNeighborsSet (edgeTable s) t)) as [tuples|] eqn:Htup; [|done].
  rewrite bind_Some. intros Hrun. apply sizeTuples_tags in Htup.
  pose proof (sortTuples_Permutation largerSize tuples (largerSize_strictWeakOrder tuples))
    as Hperm.
  destruct (stddevLoop_keeps _ [] large Hrun) as (k & Hk & Hkl).
  - rewrite Hperm, Htup. apply NoDup_getNeighborsSet.
  - intros x Hx. by apply elem_of_nil in Hx.
  - exists (tupleTag k). split; [|done].
    apply elem_of_getNeighborsSet. rewrite <- Htup.
    rewrite Hperm in Hk. apply list_elem_of_In, in_map, list_elem_of_In, Hk.
Qed.

Lemma filter_defined (s : SuperpixelImage) (t : Z) :
  wf s → row s t ≠ [] →
  is_Some (filterOutVeryLargeNeighbors sample_mean sample_mean_delta_squared_div stdSort s t).
Proof.
  intros Hwf Hne. unfold filterOutVeryLargeNeighbors.
  destruct (sizeTuples_defined s (getNeighborsSet (edgeTable s) t)) as [tuples Htup].
  { intros n Hn. apply elem_of_getNeighborsSet in Hn.
    apply (wf_row_live s Hwf n t). by apply (wf_sym s Hwf). }
  rewrite Htup, bind_Some. apply stddevLoop_defined.
  apply sizeTuples_tags in Htup. intros Hnil.
  assert (Hlen : length (sortTuples stdSort largerSize tuples)
                 = length (getNeighborsSet (edgeTable s) t)).
  { by rewrite (sortTuples_Permutation largerSize tuples (largerSize_strictWeakOrder tuples)),
      <- Htup, length_map. }
  rewrite Hnil in Hlen. simpl in Hlen.
  destruct (row s t) as [|n l] eqn:Hrow; [done|].
  assert (Hin : n ∈ getNeighborsSet (edgeTable s) t).
  { apply elem_of_getNeighborsSet. fold (row s t). rewrite Hrow. by left. }
  destruct (getNeighborsSet (edgeTable s) t); [by apply elem_of_nil in Hin|done].
Qed.

Lemma filter_undefined (s : SuperpixelImage) (t : Z) :
  row s t = [] →
  filterOutVeryLargeNeighbors sample_mean sample_mean_delta_squared_div stdSort s t = None.
Proof.
  intros Hrow.
  destruct (filterOutVeryLargeNeighbors _ _ _ s t) as [large|] eqn:Hrun; [|done].
  destruct (filter_keeps_neighbor s t large Hrun) as (n & Hn & _).
  rewrite Hrow in Hn. by apply elem_of_nil in Hn.
Qed.

Lemma lockedPtrOf_locked (large : list Z) (n : Z) :
  match lockedPtrOf large with
  | Some lockedTable => bool_decide (is_Some (lockedTable !! n))
  | None => false
  end = bool_decide (n ∈ large).
Proof.
  unfold lockedPtrOf. destruct large as [|a l].
  { symmetry. apply bool_decide_eq_false. apply not_elem_of_nil. }
  apply bool_decide_ext. generalize (a :: l). clear. intros large.
  enough (Hgen : ∀ (m : gmap Z bool),
            is_Some (foldl (fun locked k => <[k := true]> locked) m large !! n) ↔
            is_Some (m !! n) ∨ n ∈ large).
  { rewrite Hgen, lookup_empty. split; [intros [[? ?]|?]; done|by right]. }
  induction large as [|k large IH]; intros m; simpl.
  { rewrite elem_of_nil. tauto. }
  rewrite IH, elem_of_cons, lookup_insert. destruct (decide (k = n)) as [->|].
  - split; [by right; left|]. intros _. left. by eexists.
  - intuition congruence.
Qed.

Lemma compareTuples_spec (s : SuperpixelImage) (t : Z) (large l : list Z) :
  (∀ n, n ∈ l → live s n) →
  ∃ results, compareTuples compareHist s t (lockedPtrOf large) l = Some results ∧
             map (fun r : CompareNeighborTuple => r.2) results = filter (fun n => n ∉ large) l ∧
             ∀ r, r ∈ results → r.1.1 = compareHist s t r.2.
Proof.
  induction l as [|n l IH]; intros Hlive.
  { exists []. split; [done|]. split; [done|]. intros r Hr. by apply elem_of_nil in Hr. }
  cbn [compareTuples]. rewrite lockedPtrOf_locked, filter_cons.
  destruct IH as (rest & Hrest & Htags & Hscore); [intros m Hm; apply Hlive; by right|].
  destruct (decide (n ∈ large)) as [Hin|Hnin].
  - rewrite (bool_decide_eq_true_2 _ Hin). destruct (decide (n ∉ large)); [done|].
    by exists rest.
  - rewrite (bool_decide_eq_false_2 _ Hnin). destruct (decide (n ∉ large)); [|done].
    destruct (Hlive n) as [sp Hsp]; [by left|].
    unfold getSuperpixelPtr. rewrite Hsp, bind_Some, Hrest, bind_Some.
    eexists. split; [reflexivity|]. simpl. split; [by rewrite Htags|].
    intros r Hr. apply elem_of_cons in Hr as [->|Hr]; [done|by apply Hscore].
Qed.

Lemma lastOfTie_choice (tie : float) (tuples : list CompareNeighborTuple) (minNeighbor : Z) :
  lastOfTie tie tuples minNeighbor = minNeighbor ∨
  lastOfTie tie tuples minNeighbor ∈ map (fun r : CompareNeighborTuple => r.2) tuples.
Proof.
  revert minNeighbor. induction tuples as [|tuple rest IH]; intros minNeighbor; [by left|].
  simpl. destruct (SFeqb _ _); [|by left]. right.
  destruct (IH tuple.2) as [->|Hin]; [left|by right].
Qed.

(** The tag that [pickSmallNeighbor] returns is the tag of a tuple of the
    comparison list. *)
Lemma pick_from_results (results : list CompareNeighborTuple) (minTuple : spec_float * Z * Z) :
  results !! 0%nat = Some minTuple →
  ∃ minNeighbor,
    match results !! 1%nat with
    | Some second =>
        if SFeqb minTuple.1.1 second.1.1
        then Some (lastOfTie (doubleToFloat minTuple.1.1) (drop 2 results) second.2)
        else Some minTuple.2
    | None => Some minTuple.2
    end = Some minNeighbor ∧
    minNeighbor ∈ map (fun r : spec_float * Z * Z => r.2) results.
Proof.
  intros Hmin. destruct results as [|r0 results]; [done|]. injection Hmin as ->.
  destruct results as [|r1 results]; simpl.
  { eexists. split; [done|]. left. }
  destruct (SFeqb _ _).
  - eexists. split; [done|]. rewrite drop_0.
    destruct (lastOfTie_choice (doubleToFloat minTuple.1.1) results r1.2) as [->|Hin].
    + right. left.
    + right. by right.
  - eexists. split; [done|]. left.
Qed.

(** C10, as it holds for the code.  [mergeSmallSuperpixels] reads
    [results[0]] without a guard, and the large-neighbor filter is what
    keeps the read inside the vector: the filter never returns a list
    that holds every neighbor.  In a well-formed store, with scores that
    are numbers and whatever order [std::sort] gives to equal keys: for a
    live region with a neighbor the filter returns, the comparison list
    has a first element, the tag that is chosen is a neighbor outside
    the result of the filter, the merge with it returns, and so does the
    visit of a small region; for a live region without a neighbor the
    filter itself has no result, at its read of the first size.  So the
    visit of a region has no result exactly for a live, small region
    without a neighbor. *)
Theorem small_region_pick (s : SuperpixelImage) (t : Z) :
  wf s →
  (∀ n, n ∈ row s t → F64.is_nan (compareHist s t n) = false) →
  (live s t → row s t = [] →
     filterOutVeryLargeNeighbors sample_mean sample_mean_delta_squared_div stdSort s t
       = None ∧
     pickSmallNeighbor sample_mean sample_mean_delta_squared_div compareHist stdSort s t
       = None) ∧
  (live s t → row s t ≠ [] →
     ∃ largeNeighbors results minTuple minNeighbor s',
       filterOutVeryLargeNeighbors sample_mean sample_mean_delta_squared_div stdSort s t
         = Some largeNeighbors ∧
       (∃ n, n ∈ row s t ∧ n ∉ largeNeighbors) ∧
       compareNeighborSuperpixels compareHist stdSort s t (lockedPtrOf largeNeighbors)
         = Some results ∧
       results !! 0%nat = Some minTuple ∧
       pickSmallNeighbor sample_mean sample_mean_delta_squared_div compareHist stdSort s t
         = Some minNeighbor ∧
       minNeighbor ∈ row s t ∧ (minNeighbor ∉ largeNeighbors) ∧
       mergeEdge s (mkEdge t minNeighbor) = Some s' ∧
       (Z.of_nat (numCoords s t) < MaxSmallNumPixelsVal →
          smallSuperpixelStep sample_mean sample_mean_delta_squared_div compareHist stdSort
            s t
          = Some (s', negb (bool_decide
                              (live s' t ∧
                               (Z.of_nat (numCoords s' t) < MaxSmallNumPixelsVal)))))) ∧
  (smallSuperpixelStep sample_mean sample_mean_delta_squared_div compareHist stdSort s t
     = None ↔
   live s t ∧ Z.of_nat (numCoords s t) < MaxSmallNumPixelsVal ∧ row s t = []).
Proof.
  intros Hwf Hnan.
  assert (Hempty : live s t → row s t = [] →
            filterOutVeryLargeNeighbors sample_mean sample_mean_delta_squared_div stdSort s t
              = None ∧
            pickSmallNeighbor sample_mean sample_mean_delta_squared_div compareHist stdSort s t
              = None).
  { intros _ Hrow. pose proof (filter_undefined s t Hrow) as Hf. split; [done|].
    unfold pickSmallNeighbor. by rewrite Hf. }
  assert (Hfull : live s t → row s t ≠ [] →
     ∃ largeNeighbors results minTuple minNeighbor s',
       filterOutVeryLargeNeighbors sample_mean sample_mean_delta_squared_div stdSort s t
         = Some largeNeighbors ∧
       (∃ n, n ∈ row s t ∧ n ∉ largeNeighbors) ∧
       compareNeighborSuperpixels compareHist stdSort s t (lockedPtrOf largeNeighbors)
         = Some results ∧
       results !! 0%nat = Some minTuple ∧
       pickSmallNeighbor sample_mean sample_mean_delta_squared_div compareHist stdSort s t
         = Some minNeighbor ∧
       minNeighbor ∈ row s t ∧ (minNeighbor ∉ largeNeighbors) ∧
       mergeEdge s (mkEdge t minNeighbor) = Some s' ∧
       (Z.of_nat (numCoords s t) < MaxSmallNumPixelsVal →
          smallSuperpixelStep sample_mean sample_mean_delta_squared_div compareHist stdSort
            s t
          = Some (s', negb (bool_decide
                              (live s' t ∧
                               (Z.of_nat (numCoords s' t) < MaxSmallNumPixelsVal)))))).
  { intros [sp Hsp] Hrow. destruct (filter_defined s t Hwf Hrow) as [large Hlarge].
    destruct (filter_keeps_neighbor s t large Hlarge) as (n & Hn & Hnl).
    destruct (compareTuples_spec s t large (getNeighborsSet (edgeTable s) t))
      as (raw & Hraw & Htags & Hscore).
    { intros m Hm. apply elem_of_getNeighborsSet in Hm.
      apply (wf_row_live s Hwf m t). by apply (wf_sym s Hwf). }
    assert (Hrawtags : ∀ m, m ∈ map (fun r : CompareNeighborTuple => r.2) raw ↔
                            m ∈ row s t ∧ m ∉ large).
    { intros m. rewrite Htags, list_elem_of_filter, elem_of_getNeighborsSet. tauto. }
    assert (Hperm : sortTuples stdSort lessAlike raw ≡ₚ raw).
    { apply sortTuples_Permutation, lessAlike_strictWeakOrder. intros r Hr.
      rewrite (Hscore r Hr). apply Hnan, (Hrawtags r.2).
      apply list_elem_of_In, in_map, list_elem_of_In, Hr. }
    set (results := sortTuples stdSort lessAlike raw) in *.
    assert (Hcmp : compareNeighborSuperpixels compareHist stdSort s t (lockedPtrOf large)
                   = Some results).
    { unfold compareNeighborSuperpixels, getSuperpixelPtr.
      by rewrite Hsp, bind_Some, Hraw, bind_Some. }
    assert (Hlen : (0 < length results)%nat).
    { rewrite Hperm, <- (length_map (fun r : CompareNeighborTuple => r.2)).
      assert (Hin : n ∈ map (fun r : CompareNeighborTuple => r.2) raw) by by apply Hrawtags.
      destruct (map _ raw); [by apply elem_of_nil in Hin|simpl; lia]. }
    destruct (lookup_lt_is_Some_2 results 0 Hlen) as [minTuple Hmin].
    unfold CompareNeighborTuple in *.
    destruct (pick_from_results results minTuple Hmin) as (minNeighbor & Hchoice & Hin).
    assert (Hpick : pickSmallNeighbor sample_mean sample_mean_delta_squared_div compareHist
                      stdSort s t = Some minNeighbor).
    { unfold pickSmallNeighbor. rewrite Hlarge, bind_Some, Hcmp, bind_Some.
      unfold CompareNeighborTuple in *. by rewrite Hmin, bind_Some. }
    assert (Hmn : minNeighbor ∈ row s t ∧ minNeighbor ∉ large).
    { apply Hrawtags. by rewrite <- Hperm. }
    destruct Hmn as [Hmrow Hmlarge].
    destruct (mergeEdge_merged s (mkEdge t minNeighbor)) as (s' & Hmerge & _); simpl.
    { done. }
    { intros <-. by apply (wf_irrefl s Hwf t). }
    { by exists sp. }
    { apply (wf_row_live s Hwf minNeighbor t). by apply (wf_sym s Hwf). }
    { done. }
    exists large, results, minTuple, minNeighbor, s'.
    split; [done|]. split; [by exists n|]. split; [done|]. split; [done|].
    split; [done|]. split; [done|]. split; [done|]. split; [done|].
    intros Hsmall. unfold smallSuperpixelStep, getSuperpixelPtr. rewrite Hsp.
    assert (Hnum : Z.of_nat (length (coords sp)) = Z.of_nat (numCoords s t)).
    { unfold numCoords. by rewrite Hsp. }
    rewrite Hnum. destruct (Z.leb_spec MaxSmallNumPixelsVal (Z.of_nat (numCoords s t)));
      [lia|].
    rewrite Hpick, bind_Some, Hmerge, bind_Some. unfold live, numCoords.
    destruct (tagToSuperpixelMap s' !! t) as [sp'|]; simpl.
    - do 2 f_equal. destruct (Z.ltb_spec (Z.of_nat (length (coords sp')))
                                         MaxSmallNumPixelsVal).
      + by rewrite bool_decide_eq_true_2.
      + rewrite bool_decide_eq_false_2; [done|]. intros [_ ?]. lia.
    - done. }
  split; [done|]. split; [done|].
  unfold smallSuperpixelStep at 1. unfold getSuperpixelPtr.
  destruct (tagToSuperpixelMap s !! t) as [sp|] eqn:Hsp.
  2:{ split; [done|]. intros ([? ?] & _). unfold live in *. congruence. }
  assert (Hnum : Z.of_nat (length (coords sp)) = Z.of_nat (numCoords s t)).
  { unfold numCoords. by rewrite Hsp. }
  assert (Hlive : live s t) by by exists sp.
  rewrite Hnum. destruct (Z.leb_spec MaxSmallNumPixelsVal (Z.of_nat (numCoords s t))).
  { split; [done|]. intros (_ & ? & _). lia. }
  destruct (row s t) as [|n0 l0] eqn:Hrow.
  - destruct (Hempty Hlive eq_refl) as [_ ->]. simpl. split; [done|]. done.
  - destruct (Hfull Hlive) as (large & results & minTuple & minNeighbor & s' & _ & _ & _ & _
                               & Hpick & _ & _ & Hmerge & _); [done|].
    rewrite Hpick, bind_Some, Hmerge, bind_Some. split.
    + by destruct (tagToSuperpixelMap s' !! t).
    + by intros (_ & _ & ?).
Qed.

End TinyRegionLemmas.

Lemma sliverStore_numbers (n : Z) :
  n ∈ row sliverStore 1 → F64.is_nan (tagDistance sliverStore 1 n) = false.
Proof.
  intros Hin. change (row sliverStore 1) with [2; 3] in Hin.
  repeat (apply elem_of_cons in Hin as [->|Hin]; [vm_compute; reflexivity|]).
  by apply elem_of_nil in Hin.
Qed.

Lemma small_region_pick_witness :
  ∃ largeNeighbors results minTuple minNeighbor s',
    filterOutVeryLargeNeighbors sampleMean sampleStddev mergeSort sliverStore 1
      = Some largeNeighbors ∧
    (∃ n, n ∈ row sliverStore 1 ∧ n ∉ largeNeighbors) ∧
    compareNeighborSuperpixels tagDistance mergeSort sliverStore 1 (lockedPtrOf largeNeighbors)
      = Some results ∧
    results !! 0%nat = Some minTuple ∧
    pickSmallNeighbor sampleMean sampleStddev tagDistance mergeSort sliverStore 1
      = Some minNeighbor ∧
    minNeighbor ∈ row sliverStore 1 ∧ (minNeighbor ∉ largeNeighbors) ∧
    mergeEdge sliverStore (mkEdge 1 minNeighbor) = Some s' ∧
    (Z.of_nat (numCoords sliverStore 1) < MaxSmallNumPixelsVal →
       smallSuperpixelStep sampleMean sampleStddev tagDistance mergeSort sliverStore 1
       = Some (s', negb (bool_decide
                           (live s' 1 ∧
                            (Z.of_nat (numCoords s' 1) < MaxSmallNumPixelsVal))))).
Proof.
  refine (proj1 (proj2 (small_region_pick sampleMean sampleStddev tagDistance mergeSort
                          mergeSort_rearranges sliverStore 1 _ sliverStore_numbers)) _ _).
  - apply reachable_wf, (parsed_reachable sliver). vm_compute. reflexivity.
  - vm_compute. eexists. reflexivity.
  - vm_compute. discriminate.
Defined.

(** C10 as written has an input on which every neighbor of a small region
    is filtered out as a size outlier, so that the comparison list is
    empty: no store, region and filter result are like that, whatever
    the statistics are and however the sort places equal sizes. *)
Lemma large_neighbor_filter_counterexample :
  ¬ ∃ (sample_mean : list float → float)
      (sample_mean_delta_squared_div : list float → float → float)
      (stdSort : (CompareNeighborTuple → CompareNeighborTuple → bool) →
                 list CompareNeighborTuple → list CompareNeighborTuple)
      (s : SuperpixelImage) (t : Z) (largeNeighbors : list Z),
      rearranges stdSort ∧
      filterOutVeryLargeNeighbors sample_mean sample_mean_delta_squared_div stdSort s t
        = Some largeNeighbors ∧
      ∀ n, n ∈ row s t → n ∈ largeNeighbors.
Proof.
  intros (sm & sd & srt & s & t & large & Hsort & Hrun & Hall).
  destruct (filter_keeps_neighbor sm sd srt Hsort s t large Hrun) as (n & Hn & Hnl).
  by apply Hnl, Hall.
Qed.

Lemma eraseLocks_lookup (locked : gmap Z bool) (merged : list Z) (t : Z) :
  eraseLocks locked merged !! t = if decide (t ∈ merged) then None else locked !! t.
Proof.
  unfold eraseLocks. revert locked. induction merged as [|m merged IH]; intros locked; simpl.
  { destruct (decide (t ∈ [])) as [Hin|]; [by apply elem_of_nil in Hin|done]. }
  rewrite IH.
  assert (Hstep : (if bool_decide (is_Some (locked !! m)) then delete m locked else locked)
                  !! t = if decide (m = t) then None else locked !! t).
  { destruct (decide (m = t)) as [->|Hne].
    - destruct (bool_decide (is_Some (locked !! t))) eqn:Hb; [apply lookup_delete_eq|].
      apply bool_decide_eq_false in Hb. by apply eq_None_not_Some.
    - destruct (bool_decide _); [by apply lookup_delete_ne|done]. }
  rewrite Hstep.
  destruct (decide (t ∈ merged)), (decide (t ∈ m :: merged)) as [Hin|Hnin]; try done.
  - exfalso. apply Hnin. by right.
  - apply elem_of_cons in Hin as [->|?]; [|done]. by destruct (decide (m = m)).
  - destruct (decide (m = t)) as [->|]; [|done]. exfalso. apply Hnin. by left.
Qed.

Lemma elem_of_keys (m : gmap Z bool) (t : Z) :
  t ∈ (map_to_list m).*1 ↔ is_Some (m !! t).
Proof.
  rewrite list_elem_of_fmap. split.
  - intros ([k v] & -> & Hin). apply elem_of_map_to_list in Hin. by exists v.
  - intros [v Hv]. exists (t, v). split; [done|]. by apply elem_of_map_to_list.
Qed.

Section SweepProperties.

Variable backprojectNeighborSuperpixels :
  SuperpixelImage → Z → gmap Z bool → list CompareNeighborTuple.
Variable expandBredthFirst : Z → SweepState → option SweepState.

(** C8, as it holds for the code.  When the scan from the iterator
    finds no unlocked
    region: [mergeBackprojectSuperpixels] ends if no region was merged
    into since the last clear, and otherwise erases the locks of exactly
    the regions recorded as merged into, empties that record, sorts the
    regions again and scans from the start; [mergeBredthFirstRecursive]
    ends in either case and leaves locks and record as they are. *)
Theorem lock_clear_rule (fuel : nat) (st : SweepState) :
  (∀ locked spIter,
     findUnlocked true (sw_image st) (drop (sw_spIter st) (sw_sortedSuperpixels st))
                  (sw_locked st) (sw_spIter st) = (-1, locked, spIter) →
     (sw_mergesSinceLockClear st = ∅ →
        ∃ st', backprojectSweepStep backprojectNeighborSuperpixels fuel st = Some st' ∧
               sw_done st' = true ∧ sw_locked st' = locked) ∧
     (sw_mergesSinceLockClear st ≠ ∅ →
        ∃ st', backprojectSweepStep backprojectNeighborSuperpixels fuel st = Some st' ∧
               sw_done st' = sw_done st ∧
               (∀ t, sw_locked st' !! t =
                     if decide (is_Some (sw_mergesSinceLockClear st !! t))
                     then None else locked !! t) ∧
               sw_mergesSinceLockClear st' = ∅ ∧
               sw_sortedSuperpixels st' = sortSuperpixelsBySize (sw_image st) ∧
               sw_spIter st' = 0%nat ∧
               sw_image st' = sw_image st)) ∧
  (∀ locked spIter,
     findUnlocked false (sw_image st) (drop (sw_spIter st) (sw_sortedSuperpixels st))
                  (sw_locked st) (sw_spIter st) = (-1, locked, spIter) →
     ∃ st', bredthFirstSweepStep expandBredthFirst st = Some st' ∧
            sw_done st' = true ∧ sw_locked st' = locked ∧
            sw_mergesSinceLockClear st' = sw_mergesSinceLockClear st).
Proof.
  split.
  - intros locked spIter Hscan. unfold backprojectSweepStep. rewrite Hscan. simpl. split.
    + intros Hempty. rewrite Hempty, map_size_empty. simpl. by eexists.
    + intros Hne. destruct (Nat.eqb_spec (size (sw_mergesSinceLockClear st)) 0) as [Hz|_].
      { by apply map_size_empty_iff in Hz. }
      eexists. split; [reflexivity|]. simpl. split; [done|]. split; [|done].
      intros t. rewrite eraseLocks_lookup.
      destruct (decide (t ∈ (map_to_list (sw_mergesSinceLockClear st)).*1)) as [Hin|Hnin],
               (decide (is_Some (sw_mergesSinceLockClear st !! t))) as [Hs|Hns]; try done.
      * by apply elem_of_keys in Hin.
      * by apply elem_of_keys in Hs.
  - intros locked spIter Hscan. unfold bredthFirstSweepStep. rewrite Hscan. simpl.
    by eexists.
Qed.

End SweepProperties.

Lemma lock_clear_rule_witness :
  ∃ st', backprojectSweepStep noneAlike 1 exhaustedSweep = Some st' ∧
         sw_done st' = false ∧
         (∀ t, sw_locked st' !! t =
               if decide (is_Some (sw_mergesSinceLockClear exhaustedSweep !! t))
               then None else sw_locked exhaustedSweep !! t) ∧
         sw_mergesSinceLockClear st' = ∅.
Proof.
  destruct (proj1 (lock_clear_rule noneAlike noExpansion 1 exhaustedSweep)
              (sw_locked exhaustedSweep) 2%nat) as [_ Hclear].
  - vm_compute. reflexivity.
  - destruct Hclear as (st' & Hrun & Hdone & Hlocks & Hmerges & _).
    + intros Hempty. apply (f_equal (fun m : gmap Z bool => m !! 1)) in Hempty.
      vm_compute in Hempty. discriminate.
    + exists st'. split; [exact Hrun|]. split; [exact Hdone|]. split; [exact Hlocks|].
      exact Hmerges.
Defined.

(** C8 as written lets the strategy clear the locks of the touched regions
    and scan again whenever some region was touched: in
    [mergeBredthFirstRecursive] every region is locked, region 1 was
    merged into since the last clear, and the strategy ends with the
    lock of region 1 still set. *)
Lemma lock_clear_counterexample :
  (findUnlocked false (sw_image exhaustedSweep)
     (drop (sw_spIter exhaustedSweep) (sw_sortedSuperpixels exhaustedSweep))
     (sw_locked exhaustedSweep) (sw_spIter exhaustedSweep)).1.1 = -1 ∧
  sw_mergesSinceLockClear exhaustedSweep !! 1 = Some true ∧
  ∃ st', bredthFirstSweepStep noExpansion exhaustedSweep = Some st' ∧
         sw_done st' = true ∧ sw_locked st' !! 1 = Some true ∧
         sw_mergesSinceLockClear st' !! 1 = Some true.
Proof.
  split; [vm_compute; reflexivity|]. split; [vm_compute; reflexivity|].
  eexists. split; [vm_compute; reflexivity|]. repeat split; vm_compute; reflexivity.
Qed.

